(** * Subanagram search: a shallow embedding of [solver.py]

    The development follows the layout of the Python module: the string
    helpers of the standard library that the program calls
    ([str.count], [str.lower], [str.rstrip], [sorted], [readline]), then
    [vectorize_word], [generate_lookup], [get_results], [print_results]
    and [main], and finally the properties of each.

    Modelling conventions.
    - A Python [str] is a [string]; a character is an [ascii] read as the
      code point of the same number, so the model covers the strings whose
      code points are below 256.
    - A Python [int] is a [Z].
    - A [dict] is a [gmap], a [set] is a [gset]; both are used by the
      program only through membership, lookup, insertion and iteration
      whose order does not reach a result.
    - A raised exception is [None]. *)

From Stdlib Require Import ZArith NArith Ascii String List Permutation Lia.
From stdpp Require Import base option list sorting strings gmap.

Local Open Scope string_scope.
Local Open Scope list_scope.
Local Open Scope Z_scope.

(** ** Strings *)

Module Str.

(** [list(s)]: the characters of a string, in order. *)
Definition chars (s : string) : list ascii := list_ascii_of_string s.

(** [''.join(l)] for a list of one-character strings. *)
Definition join (l : list ascii) : string := string_of_list_ascii l.

(** [s.count(letter)] for a one-character [letter]. *)
Definition count (s : string) (letter : ascii) : Z :=
  Z.of_nat (count_occ ascii_dec (chars s) letter).

(** [ord(c)]. *)
Definition ord (c : ascii) : N := N_of_ascii c.

(** [c.lower()] on one character: the capitals A-Z and, in the Latin-1
    block, U+00C0-U+00DE without the multiplication sign U+00D7, move up
    by 32; every other character below 256 is its own lowercase. *)
Definition lower_char (c : ascii) : ascii :=
  let n := ord c in
  if ((65 <=? n) && (n <=? 90)
      || (192 <=? n) && (n <=? 222) && negb (n =? 215))%N
  then ascii_of_N (n + 32) else c.

(** [s.lower()]. *)
Definition lower (s : string) : string := join (map lower_char (chars s)).

(** [c.isspace()] below 256: TAB, LF, VT, FF, CR, the separators
    U+001C-U+001F, SPACE, NEL (U+0085) and NBSP (U+00A0). *)
Definition isspace (c : ascii) : bool :=
  let n := ord c in
  ((9 <=? n) && (n <=? 13) || (28 <=? n) && (n <=? 32)
   || (n =? 133) || (n =? 160))%N.

(** [s.rstrip()]: drop the longest suffix of whitespace. *)
Fixpoint rstrip_chars (l : list ascii) : list ascii :=
  match l with
  | [] => []
  | c :: l' =>
      match rstrip_chars l' with
      | [] => if isspace c then [] else [c]
      | r => c :: r
      end
  end.

Definition rstrip (s : string) : string := join (rstrip_chars (chars s)).

(** [sorted(s)]: the characters in non-decreasing code-point order. *)
Definition char_le (a b : ascii) : Prop := (ord a <= ord b)%N.

Global Instance char_le_dec : RelDecision char_le.
Proof. intros a b. unfold char_le. apply _. Defined.

Definition sorted (s : string) : list ascii := merge_sort char_le (chars s).

Global Instance char_le_trans : Transitive char_le.
Proof. intros a b c. unfold char_le. lia. Qed.

Global Instance char_le_total : Total char_le.
Proof. intros a b. unfold char_le. lia. Qed.

Global Instance char_le_antisymm : AntiSymm (=) char_le.
Proof.
  intros a b Hab Hba. unfold char_le, ord in *.
  rewrite <- (ascii_N_embedding a), <- (ascii_N_embedding b). f_equal. lia.
Qed.

(** [len(s)]. *)
Definition len (s : string) : nat := String.length s.

End Str.

(** [string.ascii_lowercase]. *)
Definition ascii_lowercase : string := "abcdefghijklmnopqrstuvwxyz".

(** ** [vectorize_word] *)

(** The loop appends [word.count(letter)] for each letter of the
    alphabet, in order. *)
Definition vectorize_word (word : string) : list Z :=
  foldl (fun word_vectorized letter => word_vectorized ++ [Str.count word letter])
        [] (Str.chars ascii_lowercase).

(** ** The word-list file *)

Definition LF : ascii := "010"%char.
Definition CR : ascii := "013"%char.

(** Text mode with the default [newline=None]: a carriage return, alone
    or followed by a line feed, reads as one line feed. [prev_cr] records
    that the previous character was a carriage return. *)
Fixpoint universal_newlines (prev_cr : bool) (l : list ascii) : list ascii :=
  match l with
  | [] => []
  | c :: l' =>
      if decide (c = CR) then LF :: universal_newlines true l'
      else if decide (c = LF) then
        if prev_cr then universal_newlines false l'
        else LF :: universal_newlines false l'
      else c :: universal_newlines false l'
  end.

(** The lines of a text, each with its terminating line feed (the last
    one may lack it). *)
Fixpoint split_lines (l : list ascii) : list (list ascii) :=
  match l with
  | [] => []
  | c :: l' =>
      if decide (c = LF) then [c] :: split_lines l'
      else match split_lines l' with
           | [] => [[c]]
           | line :: lines => (c :: line) :: lines
           end
  end.

(** An open text file is the sequence of lines that successive calls of
    [readline()] will return; once it is exhausted [readline()] returns
    the empty string. *)
Definition open_lines (text : string) : list string :=
  map Str.join (split_lines (universal_newlines false (Str.chars text))).

(** ** The lookup table *)

Record Index := mkIndex {
  anagrams : gmap string (gset string);
  vectors : gmap string (list Z)
}.

Definition empty_index : Index := mkIndex ∅ ∅.

(** The signature of a word: [''.join(sorted(word))]. *)
Definition signature (word : string) : string := Str.join (Str.sorted word).

(** One iteration of the loop of [generate_lookup], for a non-empty
    [word]. *)
Definition index_word (word : string) (idx : Index) : Index :=
  let sorted_word := signature word in
  let idx1 :=
    match anagrams idx !! sorted_word with
    | None =>
        mkIndex (<[sorted_word := ∅]> (anagrams idx))
                (<[sorted_word := vectorize_word sorted_word]> (vectors idx))
    | Some _ => idx
    end in
  mkIndex (alter (fun words => words ∪ {[word]}) sorted_word (anagrams idx1))
          (vectors idx1).

(** [while ( word := wordlist_file.readline().rstrip() ): ...]. Each test
    of the condition takes the next line of the file, or the empty string
    when none is left, and strips it; the loop ends at the first stripped
    line that is empty, be it the end of the file or a blank line. *)
Fixpoint read_words (wordlist_file : list string) (idx : Index) : Index :=
  match wordlist_file with
  | [] => idx
  | line :: rest =>
      let word := Str.rstrip line in
      if decide (word = "") then idx
      else read_words rest (index_word word idx)
  end.

Definition build_index (text : string) : Index :=
  read_words (open_lines text) empty_index.

(** ** The file system *)

(** The program reads a word list and reads and writes ["lookup.p"]. The
    text files are kept by path with their decoded content; ["lookup.p"]
    holds a pickled pair of dictionaries, which [pickle.load] gives back
    as they were dumped. *)
Record FS := mkFS {
  text_files : gmap string string;
  lookup_p : option Index
}.

Definition lookup_path : string := "lookup.p".

(** [open(path, 'r', encoding='UTF-8')] followed by reading: a missing
    file raises, and so does decoding the pickle as text. *)
Definition open_text (fs : FS) (path : string) : option string :=
  if decide (path = lookup_path) then None else text_files fs !! path.

(** [os.path.isfile("lookup.p")]. *)
Definition isfile_lookup (fs : FS) : bool :=
  match lookup_p fs with Some _ => true | None => false end.

(** ** [generate_lookup] *)

Definition generate_lookup (fs : FS) (wordlist_path : string) : option FS :=
  text ← open_text fs wordlist_path;
  Some (mkFS (text_files fs) (Some (build_index text))).

(** ** [get_results] *)

(** [all( candidate_vectorized[letter] <= input_vectorized[letter]
         for letter in range(26) )]: the letters are tried in order, the
    first failing comparison ends the test, and an index out of range
    raises. *)
Fixpoint all_le (letters : list nat) (candidate_vectorized input_vectorized : list Z)
  : option bool :=
  match letters with
  | [] => Some true
  | letter :: letters' =>
      c ← candidate_vectorized !! letter;
      i ← input_vectorized !! letter;
      if bool_decide (c <= i) then all_le letters' candidate_vectorized input_vectorized
      else Some false
  end.

Definition subanagram_test (candidate_vectorized input_vectorized : list Z) : option bool :=
  all_le (seq 0 26) candidate_vectorized input_vectorized.

(** The body of the loop over the candidate keys. *)
Definition scan_step (idx : Index) (input_vectorized : list Z)
    (results_unordered : gset string) (candidate : string) : option (gset string) :=
  candidate_vectorized ← vectors idx !! candidate;
  passes ← subanagram_test candidate_vectorized input_vectorized;
  if (passes : bool) then
    words ← anagrams idx !! candidate;
    Some (results_unordered ∪ words)
  else Some results_unordered.

Fixpoint scan (idx : Index) (input_vectorized : list Z)
    (candidates : list string) (results_unordered : gset string) : option (gset string) :=
  match candidates with
  | [] => Some results_unordered
  | candidate :: rest =>
      results ← scan_step idx input_vectorized results_unordered candidate;
      scan idx input_vectorized rest results
  end.

(** [list(anagrams.keys())]. *)
Definition keys (idx : Index) : list string := (map_to_list (anagrams idx)).*1.

(** [get_results] once the table is loaded. *)
Definition query (idx : Index) (search_input : string) : option (gset string) :=
  let search_input := Str.lower search_input in
  let input_vectorized := vectorize_word search_input in
  results_unordered ← scan idx input_vectorized (keys idx) ∅;
  if decide (search_input ∈ results_unordered)
  then Some (results_unordered ∖ {[search_input]})
  else Some results_unordered.

Definition get_results (fs : FS) (search_input : string) : option (gset string) :=
  idx ← lookup_p fs;
  query idx search_input.

(** ** [print_results] *)

(** The first loop: the words of the result set by length. The set is
    walked in the order of [elements], which stands for the order, not
    fixed by the program, in which Python walks a set; see
    [print_results_in] for the same loop on any order. *)
Definition group_word (results_ordered : gmap nat (list string)) (word : string)
  : gmap nat (list string) :=
  let word_length := Str.len word in
  let results_ordered1 :=
    match results_ordered !! word_length with
    | None => <[word_length := []]> results_ordered
    | Some _ => results_ordered
    end in
  alter (fun words => words ++ [word]) word_length results_ordered1.

Definition group_by_length (results_unordered : gset string) : gmap nat (list string) :=
  foldl group_word ∅ (elements results_unordered).

(** [range(start, stop, -1)], for [start] and [stop] natural numbers. *)
Definition range_down (start stop : nat) : list nat :=
  rev (seq (S stop) (start - stop)).

(** What is printed: one block per pair of [print] calls, with the length
    of the heading and the words of the line under it. *)
Definition print_results (search_input : string) (results_unordered : gset string)
  : list (nat * list string) :=
  let results_ordered := group_by_length results_unordered in
  omap (fun length => words ← results_ordered !! length; Some (length, words))
       (range_down (Str.len search_input) 1).

(** ** [main] *)

(** [main] with the parsed arguments [input] and [listpath]: the file
    system it leaves, the result set and what it prints. *)
Definition main (fs : FS) (input listpath : string)
  : option (FS * gset string * list (nat * list string)) :=
  fs1 ← (if isfile_lookup fs then Some fs else generate_lookup fs listpath);
  results_unordered ← get_results fs1 input;
  Some (fs1, results_unordered, print_results input results_unordered).

(** ** The order of walking a set *)

(** Python walks a set of strings in an order that the program does not
    fix and that changes from one run to the next. [print_results] and
    [main] above take the order of [elements]; the two definitions below
    are the same functions with the order as an argument: [order] lists
    the words as the first loop of [print_results] meets them, and
    [iter S] is the order in which a run walks the set [S]. *)
Definition print_results_in (order : list string) (search_input : string)
  : list (nat * list string) :=
  let results_ordered := foldl group_word ∅ order in
  omap (fun length => words ← results_ordered !! length; Some (length, words))
       (range_down (Str.len search_input) 1).

Definition main_with (iter : gset string → list string)
    (fs : FS) (input listpath : string)
  : option (FS * gset string * list (nat * list string)) :=
  fs1 ← (if isfile_lookup fs then Some fs else generate_lookup fs listpath);
  results_unordered ← get_results fs1 input;
  Some (fs1, results_unordered, print_results_in (iter results_unordered) input).

(** Two outputs with the same blocks, up to the order of the words of a
    block. *)
Definition same_blocks (out out' : list (nat * list string)) : Prop :=
  Forall2 (fun b b' => b.1 = b'.1 ∧ b.2 ≡ₚ b'.2) out out'.

(** ** Vocabulary of the properties *)

(** [is_lowercase c]: [c] is one of the 26 letters of [ascii_lowercase]. *)
Definition is_lowercase (c : ascii) : bool :=
  bool_decide (c ∈ Str.chars ascii_lowercase).

(** A word made of lowercase letters a-z only. *)
Definition lowercase_word (w : string) : Prop :=
  Forall (fun c => is_lowercase c = true) (Str.chars w).

(** The dominance relation on letter-count vectors: at each of the 26
    positions both vectors have an entry and the candidate's is not above
    the query's. *)
Definition dominated (candidate_vectorized input_vectorized : list Z) : Prop :=
  ∀ i, (i < 26)%nat →
    ∃ c q, candidate_vectorized !! i = Some c ∧ input_vectorized !! i = Some q ∧ c <= q.

(** The sum of the entries of a vector. *)
Definition vector_sum (v : list Z) : Z := foldr Z.add 0 v.

(** The same relation on words, letter by letter. *)
Definition letters_within (w q : string) : Prop :=
  ∀ letter, letter ∈ Str.chars ascii_lowercase → Str.count w letter <= Str.count q letter.

(** A word of the index: a member of the word-set of some key. *)
Definition in_index (idx : Index) (w : string) : Prop :=
  ∃ s words, anagrams idx !! s = Some words ∧ w ∈ words.

(** The co-keying invariant of the lookup table: both dictionaries have
    the same keys, the vector of a key is the vector of the key read as a
    word, and the words under a key sort to the key. *)
Definition index_inv (idx : Index) : Prop :=
  dom (anagrams idx) = dom (vectors idx)
  ∧ map_Forall (fun s v => v = vectorize_word s) (vectors idx)
  ∧ map_Forall (fun s words => set_Forall (fun w => signature w = s) words) (anagrams idx).

(** The statements of the loop body that change a dictionary:
    [anagrams[sorted_word] = set()], then
    [vectors[sorted_word] = vectorize_word(sorted_word)], and
    [anagrams[sorted_word].add(word)]. *)
Definition stmt_new (word : string) (idx : Index) : Index :=
  mkIndex (<[signature word := ∅]> (anagrams idx)) (vectors idx).

Definition stmt_vectors (word : string) (idx : Index) : Index :=
  mkIndex (anagrams idx)
          (<[signature word := vectorize_word (signature word)]> (vectors idx)).

Definition stmt_add (word : string) (idx : Index) : Index :=
  mkIndex (alter (fun words => words ∪ {[word]}) (signature word) (anagrams idx))
          (vectors idx).

(** The program points of the loop of [generate_lookup]: at the [while]
    test, about to read a line; at the [if], with [word] read and its
    sorted form computed; between the two assignments for a new key, the
    word-set created and the vector not yet stored; at the [add]; and
    after the loop. *)
Inductive point : Type :=
| AtWhile
| AtIf (word : string)
| AtVectors (word : string)
| AtAdd (word : string)
| AtEnd.

(** A state of the loop: the program point, the lines still to read and
    the dictionaries so far. *)
Definition loop_state : Type := point * list string * Index.

(** One step runs one statement. The [add] needs its key, as
    [anagrams[sorted_word]] does. *)
Inductive loop_step : loop_state → loop_state → Prop :=
| step_eof idx :
    loop_step (AtWhile, [], idx) (AtEnd, [], idx)
| step_blank line rest idx :
    Str.rstrip line = "" →
    loop_step (AtWhile, line :: rest, idx) (AtEnd, rest, idx)
| step_read line rest idx :
    Str.rstrip line ≠ "" →
    loop_step (AtWhile, line :: rest, idx) (AtIf (Str.rstrip line), rest, idx)
| step_new word rest idx :
    anagrams idx !! signature word = None →
    loop_step (AtIf word, rest, idx) (AtVectors word, rest, stmt_new word idx)
| step_known word rest idx :
    is_Some (anagrams idx !! signature word) →
    loop_step (AtIf word, rest, idx) (AtAdd word, rest, idx)
| step_vectors word rest idx :
    loop_step (AtVectors word, rest, idx) (AtAdd word, rest, stmt_vectors word idx)
| step_add word rest idx :
    is_Some (anagrams idx !! signature word) →
    loop_step (AtAdd word, rest, idx) (AtWhile, rest, stmt_add word idx).

(** The table that the loop ends with when it is resumed in a state. *)
Definition finish (st : loop_state) : Index :=
  match st with
  | (AtWhile, rest, idx) => read_words rest idx
  | (AtIf word, rest, idx) => read_words rest (index_word word idx)
  | (AtVectors word, rest, idx) => read_words rest (stmt_add word (stmt_vectors word idx))
  | (AtAdd word, rest, idx) => read_words rest (stmt_add word idx)
  | (AtEnd, _, idx) => idx
  end.

(** What holds of the dictionaries at each program point: the co-keying
    invariant, but between the two assignments for a new key, where
    [anagrams] has the new key and [vectors] does not have it yet. *)
Definition state_inv (st : loop_state) : Prop :=
  match st with
  | (AtVectors word, _, idx) =>
      dom (anagrams idx) = {[ signature word ]} ∪ dom (vectors idx)
      ∧ (signature word ∉ dom (vectors idx))
      ∧ map_Forall (fun s v => v = vectorize_word s) (vectors idx)
      ∧ map_Forall (fun s words => set_Forall (fun w => signature w = s) words) (anagrams idx)
  | (AtAdd word, _, idx) => index_inv idx ∧ is_Some (anagrams idx !! signature word)
  | (_, _, idx) => index_inv idx
  end.

(** The words that the loop of [generate_lookup] takes from the lines of
    a file. *)
Fixpoint words_read (wordlist_file : list string) : list string :=
  match wordlist_file with
  | [] => []
  | line :: rest =>
      let word := Str.rstrip line in
      if decide (word = "") then [] else word :: words_read rest
  end.

Definition indexed_words (text : string) : list string := words_read (open_lines text).

(** What the specification asks to be indexed: every line, stripped,
    that is not empty, blank lines being skipped. *)
Definition spec_tokens (text : string) : list string :=
  List.filter (fun word => negb (bool_decide (word = ""))) (map Str.rstrip (open_lines text)).

(** ** Sample inputs *)

Definition nl : string := String LF "".

Definition sample_text : string :=
  "arc" +:+ nl +:+ "car" +:+ nl +:+ "ac" +:+ nl +:+ "a" +:+ nl +:+ "cars" +:+ nl.

Definition sample_fs : FS := mkFS {[ "words.txt" := sample_text ]} None.

Definition upper_text : string := "ABC" +:+ nl.

Definition upper_fs : FS := mkFS {[ "words.txt" := upper_text ]} None.

Definition blank_text : string := "arc" +:+ nl +:+ nl +:+ "car" +:+ nl.

Definition one_word_text : string := "arc" +:+ nl.

(** [sample_fs] and [upper_fs] once [generate_lookup] has written the
    table. *)
Definition sample_fs_built : FS :=
  mkFS (text_files sample_fs) (Some (build_index sample_text)).

Definition upper_fs_built : FS :=
  mkFS (text_files upper_fs) (Some (build_index upper_text)).

(** The components of the outcome of [main]. *)
Definition main_fs (r : FS * gset string * list (nat * list string)) : FS := r.1.1.
Definition main_results (r : FS * gset string * list (nat * list string)) : gset string := r.1.2.
Definition main_printed (r : FS * gset string * list (nat * list string))
  : list (nat * list string) := r.2.

(** The number of letters a-z of a word. *)
Definition count_lowercase (w : string) : nat :=
  length (List.filter is_lowercase (Str.chars w)).

(** The words of the blocks that [print_results] emits, in the order of
    printing. *)
Definition printed_words (out : list (nat * list string)) : list string :=
  concat (out.*2).

(** A word list in another order, with a repeated word and trailing
    whitespace. *)
Definition shuffled_text : string :=
  "cars" +:+ nl +:+ "a  " +:+ nl +:+ "car" +:+ String CR nl +:+ "ac" +:+ nl
  +:+ "arc" +:+ nl +:+ "car" +:+ nl.

(** A table whose second key has a vector that is too short. *)
Definition short_index : Index :=
  mkIndex {[ "a" := {[ "a" ]}; "b" := {[ "b" ]} ]}
          {[ "a" := vectorize_word "a"; "b" := [0; 1] ]}.

Arguments vectorize_word : simpl never.
Arguments subanagram_test : simpl never.
Arguments signature : simpl never.

(** * Properties *)

(** ** The program on small inputs *)

Example vectorize_word_abc :
  vectorize_word "abc" = [1;1;1;0;0;0;0;0;0;0;0;0;0;0;0;0;0;0;0;0;0;0;0;0;0;0].
Proof. reflexivity. Qed.

Example vectorize_word_capitals : vectorize_word "ABC" = replicate 26 0.
Proof. reflexivity. Qed.

Example signature_table : signature "table" = "abelt".
Proof. reflexivity. Qed.

Example lower_mixed : Str.lower "TaBle-1" = "table-1".
Proof. reflexivity. Qed.

Example rstrip_line : Str.rstrip ("  ab c " +:+ String CR nl) = "  ab c".
Proof. reflexivity. Qed.

Example open_lines_newlines :
  open_lines ("a" +:+ String CR nl +:+ "b" +:+ String CR "c" +:+ nl +:+ "d")
  = ["a" +:+ nl; "b" +:+ nl; "c" +:+ nl; "d"].
Proof. reflexivity. Qed.

Example build_index_sample :
  anagrams (build_index sample_text)
  = {[ "acr" := {[ "arc"; "car" ]}; "ac" := {[ "ac" ]}; "a" := {[ "a" ]};
       "acrs" := {[ "cars" ]} ]}.
Proof. vm_compute. reflexivity. Qed.

Example get_results_sample :
  get_results sample_fs_built "cars" = Some {[ "arc"; "car"; "ac"; "a" ]}.
Proof. vm_compute. reflexivity. Qed.

Example get_results_no_table : get_results sample_fs "cars" = None.
Proof. reflexivity. Qed.

Example main_builds_table :
  main_fs <$> main sample_fs "cars" "words.txt" = Some sample_fs_built.
Proof. vm_compute. reflexivity. Qed.

Example main_missing_wordlist : main sample_fs "cars" "missing.txt" = None.
Proof. vm_compute. reflexivity. Qed.

(** ** Strings *)

Lemma chars_join (l : list ascii) : Str.chars (Str.join l) = l.
Proof. apply list_ascii_of_string_of_list_ascii. Qed.

Lemma join_chars (s : string) : Str.join (Str.chars s) = s.
Proof. apply string_of_list_ascii_of_string. Qed.

Lemma chars_inj (s t : string) : Str.chars s = Str.chars t → s = t.
Proof. intros H. rewrite <- (join_chars s), <- (join_chars t). by rewrite H. Qed.

Lemma len_chars (s : string) : Str.len s = length (Str.chars s).
Proof. induction s as [|c s IH]; [done|]. cbn. f_equal. exact IH. Qed.

Lemma count_nonneg (s : string) (letter : ascii) : 0 <= Str.count s letter.
Proof. unfold Str.count. lia. Qed.

Lemma count_Permutation (s t : string) (letter : ascii) :
  Str.chars s ≡ₚ Str.chars t → Str.count s letter = Str.count t letter.
Proof.
  intros H. unfold Str.count. f_equal.
  by apply (proj1 (Permutation_count_occ ascii_dec _ _)).
Qed.

Lemma sorted_Permutation (s : string) : Str.sorted s ≡ₚ Str.chars s.
Proof. apply merge_sort_Permutation. Qed.

Lemma chars_signature (word : string) :
  Str.chars (signature word) ≡ₚ Str.chars word.
Proof. unfold signature. rewrite chars_join. apply sorted_Permutation. Qed.

Lemma count_occ_filter (P : ascii → bool) (l : list ascii) (x : ascii) :
  P x = true → count_occ ascii_dec (List.filter P l) x = count_occ ascii_dec l x.
Proof.
  intros Hx. induction l as [|c l IH]; [done|]. cbn.
  destruct (P c) eqn:Hc; cbn.
  - destruct (ascii_dec c x); by rewrite IH.
  - destruct (ascii_dec c x) as [->|]; [congruence | done].
Qed.

(** ** [vectorize_word] *)

Lemma foldl_snoc_map {A B} (f : A → B) (l : list A) (acc : list B) :
  foldl (fun acc x => acc ++ [f x]) acc l = acc ++ map f l.
Proof.
  revert acc. induction l as [|x l IH]; intros acc; cbn.
  - by rewrite app_nil_r.
  - rewrite IH. by rewrite <- app_assoc.
Qed.

Lemma vectorize_word_map (word : string) :
  vectorize_word word = map (Str.count word) (Str.chars ascii_lowercase).
Proof. unfold vectorize_word. by rewrite foldl_snoc_map. Qed.

Lemma vectorize_word_length (word : string) : length (vectorize_word word) = 26%nat.
Proof. rewrite vectorize_word_map, length_map. reflexivity. Qed.

Lemma vectorize_word_lookup (word : string) (i : nat) (letter : ascii) :
  Str.chars ascii_lowercase !! i = Some letter →
  vectorize_word word !! i = Some (Str.count word letter).
Proof. intros H. rewrite vectorize_word_map, list_lookup_fmap, H. done. Qed.

Lemma vectorize_word_Permutation (s t : string) :
  Str.chars s ≡ₚ Str.chars t → vectorize_word s = vectorize_word t.
Proof.
  intros H. rewrite !vectorize_word_map. apply map_ext.
  intros letter. by apply count_Permutation.
Qed.

Lemma vectorize_word_signature (word : string) :
  vectorize_word (signature word) = vectorize_word word.
Proof. apply vectorize_word_Permutation, chars_signature. Qed.

(** C7. [vectorize_word] is a function of the multiset of the characters
    of its argument: two strings that are permutations of each other have
    the same vector. The vector has exactly 26 entries; entry [i] is the
    number of occurrences of the [i]-th lowercase letter, which is not
    negative; and the characters outside a-z (capitals included) count
    for nothing: erasing them leaves the vector unchanged. *)
Theorem vectorize_word_anagram_invariant (w w' : string) :
  Str.chars w ≡ₚ Str.chars w' →
  vectorize_word w = vectorize_word w'
  ∧ length (vectorize_word w) = 26%nat
  ∧ (∀ i letter, Str.chars ascii_lowercase !! i = Some letter →
       vectorize_word w !! i = Some (Str.count w letter) ∧ 0 <= Str.count w letter)
  ∧ (∀ i, (i < 26)%nat → ∃ n, vectorize_word w !! i = Some n ∧ 0 <= n)
  ∧ vectorize_word (Str.join (List.filter is_lowercase (Str.chars w))) = vectorize_word w.
Proof.
  intros Hperm. split; [by apply vectorize_word_Permutation|].
  split; [apply vectorize_word_length|].
  split.
  { intros i letter Hi. split; [by apply vectorize_word_lookup | apply count_nonneg]. }
  split.
  { intros i Hi.
    destruct (Str.chars ascii_lowercase !! i) as [letter|] eqn:Hl.
    - exists (Str.count w letter). split; [by apply vectorize_word_lookup | apply count_nonneg].
    - apply lookup_ge_None in Hl. cbn in Hl. lia. }
  rewrite !vectorize_word_map. apply Forall_fmap_ext_1, Forall_forall.
  intros letter Hletter. unfold Str.count. rewrite chars_join. f_equal.
  apply count_occ_filter. unfold is_lowercase. by apply bool_decide_eq_true.
Qed.

Lemma vectorize_word_anagram_invariant_witness :
  vectorize_word "abc" = vectorize_word "cab"
  ∧ vectorize_word "abc" = [1;1;1;0;0;0;0;0;0;0;0;0;0;0;0;0;0;0;0;0;0;0;0;0;0;0]
  ∧ vectorize_word "aBc-" = vectorize_word "ac".
Proof.
  assert (Hp : Str.chars "abc" ≡ₚ Str.chars "cab")
    by (apply (bool_decide_unpack _); vm_compute; exact I).
  destruct (vectorize_word_anagram_invariant "abc" "cab" Hp) as (H1 & _).
  split; [exact H1|]. split; [reflexivity|].
  assert (Hq : Str.chars "aBc-" ≡ₚ Str.chars "aBc-") by reflexivity.
  destruct (vectorize_word_anagram_invariant "aBc-" "aBc-" Hq) as (_ & _ & _ & _ & H5).
  rewrite <- H5. reflexivity.
Defined.

(** ** [generate_lookup]: the loop *)

Lemma index_word_anagrams (word : string) (idx : Index) :
  anagrams (index_word word idx)
  = <[signature word := default ∅ (anagrams idx !! signature word) ∪ {[word]}]> (anagrams idx).
Proof.
  unfold index_word. destruct (anagrams idx !! signature word) as [words|] eqn:E; cbn.
  - apply map_eq. intros s. destruct (decide (signature word = s)) as [<-|Hne].
    + by rewrite lookup_alter_eq, lookup_insert_eq, E.
    + by rewrite lookup_alter_ne, lookup_insert_ne.
  - apply map_eq. intros s. destruct (decide (signature word = s)) as [<-|Hne].
    + by rewrite lookup_alter_eq, !lookup_insert_eq.
    + by rewrite lookup_alter_ne, !lookup_insert_ne.
Qed.

Lemma index_word_vectors (word : string) (idx : Index) :
  vectors (index_word word idx)
  = match anagrams idx !! signature word with
    | None => <[signature word := vectorize_word (signature word)]> (vectors idx)
    | Some _ => vectors idx
    end.
Proof. unfold index_word. by destruct (anagrams idx !! signature word). Qed.

Lemma in_index_index_word (word : string) (idx : Index) (w : string) :
  in_index (index_word word idx) w ↔ w = word ∨ in_index idx w.
Proof.
  unfold in_index. rewrite index_word_anagrams. split.
  - intros (s & words & Hs & Hw).
    destruct (decide (signature word = s)) as [<-|Hne].
    + rewrite lookup_insert_eq in Hs. injection Hs as <-.
      apply elem_of_union in Hw as [Hw|Hw].
      * right. destruct (anagrams idx !! signature word) as [ws|] eqn:E; cbn in Hw.
        -- eauto.
        -- set_solver.
      * left. set_solver.
    + rewrite lookup_insert_ne in Hs by done. eauto.
  - intros [->|(s & words & Hs & Hw)].
    + eexists _, _. rewrite lookup_insert_eq. split; [done|]. set_solver.
    + destruct (decide (signature word = s)) as [<-|Hne].
      * eexists _, _. rewrite lookup_insert_eq. split; [done|].
        rewrite Hs. cbn. set_solver.
      * exists s, words. by rewrite lookup_insert_ne.
Qed.

Lemma index_word_inv (word : string) (idx : Index) :
  index_inv idx → index_inv (index_word word idx).
Proof.
  intros (Hdom & Hvec & Hana). unfold index_inv.
  rewrite index_word_anagrams, index_word_vectors.
  destruct (anagrams idx !! signature word) as [words|] eqn:E; cbn.
  - split; [|split].
    + rewrite dom_insert_L, <- Hdom.
      apply elem_of_dom_2 in E. apply (anti_symm (⊆)); [|apply union_subseteq_r].
      apply union_least; [by apply singleton_subseteq_l | done].
    + done.
    + apply map_Forall_insert_2; [|done].
      intros w [Hw| ->%elem_of_singleton]%elem_of_union; [|done].
      by apply (Hana _ _ E).
  - split; [|split].
    + rewrite !dom_insert_L. by rewrite Hdom.
    + by apply map_Forall_insert_2.
    + apply map_Forall_insert_2; [|done].
      intros w [Hw| ->%elem_of_singleton]%elem_of_union; [set_solver|done].
Qed.

Lemma empty_index_inv : index_inv empty_index.
Proof.
  unfold index_inv, empty_index; cbn. split; [|split].
  - by rewrite !dom_empty_L.
  - apply map_Forall_empty.
  - apply map_Forall_empty.
Qed.

Lemma read_words_foldl (lines : list string) (idx : Index) :
  read_words lines idx = foldl (fun idx word => index_word word idx) idx (words_read lines).
Proof.
  revert idx. induction lines as [|line rest IH]; intros idx; cbn; [done|].
  destruct (decide (Str.rstrip line = "")); cbn; [done | apply IH].
Qed.

Lemma read_words_inv (lines : list string) (idx : Index) :
  index_inv idx → index_inv (read_words lines idx).
Proof.
  revert idx. induction lines as [|line rest IH]; intros idx Hinv; cbn; [done|].
  destruct (decide (Str.rstrip line = "")); [done|].
  by apply IH, index_word_inv.
Qed.

Lemma in_index_read_words (lines : list string) (idx : Index) (w : string) :
  in_index (read_words lines idx) w ↔ w ∈ words_read lines ∨ in_index idx w.
Proof.
  revert idx. induction lines as [|line rest IH]; intros idx; cbn.
  - rewrite elem_of_nil. tauto.
  - destruct (decide (Str.rstrip line = "")).
    + rewrite elem_of_nil. tauto.
    + rewrite IH, in_index_index_word, elem_of_cons. tauto.
Qed.

Lemma in_index_empty (w : string) : ¬ in_index empty_index w.
Proof. intros (s & words & Hs & _). cbn in Hs. by rewrite lookup_empty in Hs. Qed.

Lemma build_index_inv (text : string) : index_inv (build_index text).
Proof. apply read_words_inv, empty_index_inv. Qed.

Lemma in_index_build_index (text : string) (w : string) :
  in_index (build_index text) w ↔ w ∈ indexed_words text.
Proof.
  unfold build_index, indexed_words. rewrite in_index_read_words.
  pose proof (in_index_empty w). tauto.
Qed.

(** ** [get_results]: the subanagram test and the scan *)

Lemma all_le_spec (letters : list nat) (cv qv : list Z) :
  (∀ l, l ∈ letters → is_Some (cv !! l) ∧ is_Some (qv !! l)) →
  ∃ b, all_le letters cv qv = Some b
       ∧ (b = true ↔ ∀ l, l ∈ letters →
            ∃ c q, cv !! l = Some c ∧ qv !! l = Some q ∧ c <= q).
Proof.
  induction letters as [|letter letters IH]; intros Hdef; cbn.
  - exists true. split; [done|]. split; [|done]. intros _ l Hl. by apply elem_of_nil in Hl.
  - destruct (Hdef letter) as [[c Hc] [q Hq]]; [left|].
    rewrite Hc, Hq; cbn.
    destruct IH as (b & Hb & Hspec).
    { intros l Hl. apply Hdef. by right. }
    case_bool_decide as Hle.
    + exists b. split; [done|]. rewrite Hspec. split.
      * intros H l [->|Hl]%elem_of_cons; [eauto | by apply H].
      * intros H l Hl. apply H. by right.
    + exists false. split; [done|]. split; [done|].
      intros H. destruct (H letter) as (c' & q' & Hc' & Hq' & Hle'); [left|].
      rewrite Hc in Hc'. rewrite Hq in Hq'. by simplify_eq.
Qed.

Lemma subanagram_test_spec (cv qv : list Z) :
  length cv = 26%nat → length qv = 26%nat →
  ∃ b, subanagram_test cv qv = Some b ∧ (b = true ↔ dominated cv qv).
Proof.
  intros Hcv Hqv. unfold subanagram_test, dominated.
  destruct (all_le_spec (seq 0 26) cv qv) as (b & Hb & Hspec).
  { intros l [_ Hl]%elem_of_seq. split; apply lookup_lt_is_Some; lia. }
  exists b. split; [done|]. rewrite Hspec. split.
  - intros H i Hi. apply H, elem_of_seq. lia.
  - intros H l [_ Hl]%elem_of_seq. apply H. lia.
Qed.

(** The scan over a list of keys of a table that satisfies the
    invariant. *)
Lemma scan_spec (idx : Index) (qv : list Z) (candidates : list string) (acc : gset string) :
  index_inv idx → length qv = 26%nat →
  (∀ s, s ∈ candidates → is_Some (anagrams idx !! s)) →
  ∃ R, scan idx qv candidates acc = Some R
       ∧ ∀ w, w ∈ R ↔ w ∈ acc ∨ ∃ s words, s ∈ candidates ∧ anagrams idx !! s = Some words
                                   ∧ dominated (vectorize_word s) qv ∧ w ∈ words.
Proof.
  intros (Hdom & Hvec & Hana) Hqv. revert acc.
  induction candidates as [|s rest IH]; intros acc Hkeys; cbn.
  - exists acc. split; [done|]. intros w. split; [tauto|].
    intros [H|(s & words & Hs & _)]; [done | by apply elem_of_nil in Hs].
  - destruct (Hkeys s) as [words Hwords]; [left|].
    assert (Hv : vectors idx !! s = Some (vectorize_word s)).
    { assert (Hin : s ∈ dom (vectors idx)) by (rewrite <- Hdom; by apply elem_of_dom).
      apply elem_of_dom in Hin as [v Hv]. by rewrite Hv, (Hvec _ _ Hv). }
    unfold scan_step. rewrite Hv; cbn.
    destruct (subanagram_test_spec (vectorize_word s) qv) as (b & Hb & Hspec);
      [apply vectorize_word_length | done |].
    rewrite Hb; cbn.
    destruct b; cbn.
    + rewrite Hwords; cbn.
      destruct (IH (acc ∪ words)) as (R & HR & HRspec).
      { intros s' Hs'. apply Hkeys. by right. }
      exists R. split; [done|]. intros w. rewrite HRspec, elem_of_union. split.
      * intros [[H|H]|(s' & words' & Hs' & Hrest)].
        -- by left.
        -- right. exists s, words. split; [left|]. split; [done|]. split; [by apply Hspec | done].
        -- right. exists s', words'. split; [by right | done].
      * intros [H|(s' & words' & [->|Hs']%elem_of_cons & Hlook & Hd & Hw)].
        -- by left; left.
        -- left; right. congruence.
        -- right. by exists s', words'.
    + destruct (IH acc) as (R & HR & HRspec).
      { intros s' Hs'. apply Hkeys. by right. }
      exists R. split; [done|]. intros w. rewrite HRspec. split.
      * intros [H|(s' & words' & Hs' & Hrest)]; [by left|].
        right. exists s', words'. split; [by right | done].
      * intros [H|(s' & words' & [->|Hs']%elem_of_cons & Hlook & Hd & Hw)].
        -- by left.
        -- apply Hspec in Hd. done.
        -- right. by exists s', words'.
Qed.

Lemma elem_of_keys (idx : Index) (s : string) :
  s ∈ keys idx ↔ is_Some (anagrams idx !! s).
Proof.
  unfold keys. rewrite list_elem_of_fmap. split.
  - intros ([s' words] & -> & H%elem_of_map_to_list). by exists words.
  - intros [words H]. exists (s, words). split; [done|]. by apply elem_of_map_to_list.
Qed.

(** The table of a key of a well-formed index. *)
Lemma index_inv_vector (idx : Index) (s : string) (words : gset string) :
  index_inv idx → anagrams idx !! s = Some words →
  vectors idx !! s = Some (vectorize_word s).
Proof.
  intros (Hdom & Hvec & _) Hs.
  assert (Hin : s ∈ dom (vectors idx)) by (rewrite <- Hdom; by apply elem_of_dom).
  apply elem_of_dom in Hin as [v Hv]. by rewrite Hv, (Hvec _ _ Hv).
Qed.

(** [query] on a table that satisfies the invariant: it returns, and the
    result is the union of the word-sets of the dominated keys without the
    lowercased query. *)
Lemma query_spec (idx : Index) (q : string) :
  index_inv idx →
  ∃ R, query idx q = Some R
       ∧ ∀ w, w ∈ R ↔
           (∃ s words, anagrams idx !! s = Some words
                       ∧ dominated (vectorize_word s) (vectorize_word (Str.lower q))
                       ∧ w ∈ words)
           ∧ w ≠ Str.lower q.
Proof.
  intros Hinv. unfold query.
  destruct (scan_spec idx (vectorize_word (Str.lower q)) (keys idx) ∅ Hinv)
    as (R0 & HR0 & Hspec); [apply vectorize_word_length | by intros s Hs%elem_of_keys |].
  rewrite HR0; cbn.
  assert (Hspec' : ∀ w, w ∈ R0 ↔
     ∃ s words, anagrams idx !! s = Some words
        ∧ dominated (vectorize_word s) (vectorize_word (Str.lower q)) ∧ w ∈ words).
  { intros w. rewrite Hspec. split.
    - intros [H|(s & words & _ & H)]; [set_solver | eauto].
    - intros (s & words & Hs & H). right. exists s, words.
      split; [apply elem_of_keys; eauto | done]. }
  destruct (decide (Str.lower q ∈ R0)) as [Hin|Hnin].
  - eexists. split; [done|]. intros w.
    rewrite elem_of_difference, elem_of_singleton, Hspec'. tauto.
  - exists R0. split; [done|]. intros w. rewrite Hspec'. split.
    + intros H. split; [done|]. intros ->. apply Hnin, Hspec', H.
    + tauto.
Qed.

(** On vectors of words, dominance is the comparison of the 26 letter
    counts. *)
Lemma dominated_letters_within (w q : string) :
  dominated (vectorize_word w) (vectorize_word q) ↔ letters_within w q.
Proof.
  unfold dominated, letters_within. split.
  - intros H letter [i Hi]%list_elem_of_lookup_1.
    destruct (H i) as (c & n & Hc & Hn & Hle).
    { apply lookup_lt_Some in Hi. exact Hi. }
    rewrite (vectorize_word_lookup w _ _ Hi) in Hc.
    rewrite (vectorize_word_lookup q _ _ Hi) in Hn. by simplify_eq.
  - intros H i Hi.
    destruct (lookup_lt_is_Some_2 (Str.chars ascii_lowercase) i) as [letter Hl]; [exact Hi|].
    exists (Str.count w letter), (Str.count q letter).
    rewrite (vectorize_word_lookup w _ _ Hl), (vectorize_word_lookup q _ _ Hl).
    split; [done|]. split; [done|].
    apply H. by eapply list_elem_of_lookup_2.
Qed.

(** ** [generate_lookup] and [get_results] through the file system *)

Lemma generate_lookup_Some (fs : FS) (path : string) (fs' : FS) :
  generate_lookup fs path = Some fs' →
  ∃ text, open_text fs path = Some text
          ∧ fs' = mkFS (text_files fs) (Some (build_index text)).
Proof.
  unfold generate_lookup. intros H.
  destruct (open_text fs path) as [text|]; [|done].
  cbn in H. injection H as <-. by exists text.
Qed.

Lemma get_results_built (fs : FS) (path : string) (fs' : FS) (q : string) :
  generate_lookup fs path = Some fs' →
  ∃ idx, lookup_p fs' = Some idx ∧ index_inv idx
         ∧ (∃ text, open_text fs path = Some text ∧ idx = build_index text)
         ∧ get_results fs' q = query idx q.
Proof.
  intros (text & Htext & ->)%generate_lookup_Some.
  exists (build_index text). split; [done|]. split; [apply build_index_inv|].
  split; [by exists text | done].
Qed.

Lemma dominated_refl (v : list Z) : length v = 26%nat → dominated v v.
Proof.
  intros Hv i Hi. destruct (lookup_lt_is_Some_2 v i) as [c Hc]; [lia|].
  exists c, c. split; [done|]. split; [done | lia].
Qed.

Lemma index_inv_signature (idx : Index) (s w : string) (words : gset string) :
  index_inv idx → anagrams idx !! s = Some words → w ∈ words → signature w = s.
Proof. intros (_ & _ & Hana) Hs Hw. by apply (Hana _ _ Hs). Qed.

(** C1. For the table that [generate_lookup] writes and any query [q],
    [get_results] returns, and its result is exactly the union of the
    word-sets of the keys whose stored vector is, at each of the 26
    positions, at most the vector of the lowercased query, with the
    lowercased query removed. Equivalently, a word of the index other than
    the lowercased query is in the result iff each of its 26 letter
    counts is at most that of the lowercased query. *)
Theorem get_results_dominance (fs : FS) (path : string) (fs' : FS) (q : string) :
  generate_lookup fs path = Some fs' →
  ∃ idx R, lookup_p fs' = Some idx ∧ get_results fs' q = Some R
    ∧ (∀ w, w ∈ R ↔
         (∃ s words cv, anagrams idx !! s = Some words ∧ vectors idx !! s = Some cv
                        ∧ dominated cv (vectorize_word (Str.lower q)) ∧ w ∈ words)
         ∧ w ≠ Str.lower q)
    ∧ (∀ w, in_index idx w → w ≠ Str.lower q →
         (w ∈ R ↔ letters_within w (Str.lower q))).
Proof.
  intros Hgen.
  destruct (get_results_built fs path fs' q Hgen) as (idx & Hidx & Hinv & _ & Hget).
  destruct (query_spec idx q Hinv) as (R & HR & Hspec).
  exists idx, R. split; [done|]. split; [by rewrite Hget|]. split.
  - intros w. rewrite Hspec. split.
    + intros [(s & words & Hs & Hd & Hw) Hne]. split; [|done].
      exists s, words, (vectorize_word s). split; [done|].
      split; [by eapply index_inv_vector | done].
    + intros [(s & words & cv & Hs & Hcv & Hd & Hw) Hne]. split; [|done].
      exists s, words. split; [done|].
      rewrite (index_inv_vector idx s words Hinv Hs) in Hcv. by simplify_eq.
  - intros w (s & words & Hs & Hw) Hne. rewrite Hspec.
    pose proof (index_inv_signature idx s w words Hinv Hs Hw) as Hsig.
    rewrite <- dominated_letters_within, <- (vectorize_word_signature w), Hsig. split.
    + intros [(s' & words' & Hs' & Hd & Hw') _].
      by rewrite <- (index_inv_signature idx s' w words' Hinv Hs' Hw'), Hsig in Hd.
    + intros Hd. split; [|done]. by exists s, words.
Qed.

Lemma get_results_dominance_witness :
  ∃ idx R, lookup_p sample_fs_built = Some idx ∧ get_results sample_fs_built "tabel" = Some R
    ∧ (∀ w, w ∈ R ↔
         (∃ s words cv, anagrams idx !! s = Some words ∧ vectors idx !! s = Some cv
                        ∧ dominated cv (vectorize_word (Str.lower "tabel")) ∧ w ∈ words)
         ∧ w ≠ Str.lower "tabel")
    ∧ (∀ w, in_index idx w → w ≠ Str.lower "tabel" →
         (w ∈ R ↔ letters_within w (Str.lower "tabel"))).
Proof.
  apply (get_results_dominance sample_fs "words.txt" sample_fs_built "tabel").
  vm_compute. reflexivity.
Defined.

(** [query] never returns the lowercased query. *)
Lemma query_excludes_lowered (idx : Index) (q : string) (R : gset string) :
  query idx q = Some R → Str.lower q ∉ R.
Proof.
  unfold query. destruct (scan idx _ (keys idx) ∅) as [R0|]; [|done]. cbn.
  destruct (decide (Str.lower q ∈ R0)) as [Hin|Hnin]; intros H; injection H as <-.
  - apply not_elem_of_difference. right. by apply elem_of_singleton.
  - done.
Qed.

(** C2, as the program has it. A query that is its own lowercase form,
    as is every word of a lowercase word list, is never in its own
    result: on the table written by [generate_lookup], [get_results w]
    returns a set that does not contain [w]. *)
Theorem self_exclusion_lowercase (fs : FS) (path : string) (fs' : FS) (w : string) :
  generate_lookup fs path = Some fs' →
  Str.lower w = w →
  ∃ R, get_results fs' w = Some R ∧ w ∉ R.
Proof.
  intros Hgen Hlow.
  destruct (get_results_built fs path fs' w Hgen) as (idx & _ & Hinv & _ & Hget).
  destruct (query_spec idx w Hinv) as (R & HR & _).
  exists R. split; [by rewrite Hget|].
  rewrite <- Hlow at 1. by eapply query_excludes_lowered.
Qed.

Lemma self_exclusion_lowercase_witness :
  ∃ R, get_results sample_fs_built "car" = Some R ∧ "car" ∉ R.
Proof.
  apply (self_exclusion_lowercase sample_fs "words.txt" sample_fs_built "car").
  - vm_compute. reflexivity.
  - vm_compute. reflexivity.
Defined.

(** C2 as stated fails on a word with capitals: with the one-word list
    [ABC], the query [ABC] is lowercased to [abc], the key [ABC] has the
    all-zero vector and passes the test, and the removal takes out [abc],
    which is not there. *)
Lemma self_exclusion_fails_on_capitals :
  "ABC" ∈ indexed_words upper_text
  ∧ generate_lookup upper_fs "words.txt" = Some upper_fs_built
  ∧ get_results upper_fs_built "ABC" = Some {[ "ABC" ]}
  ∧ "ABC" ∈ ({[ "ABC" ]} : gset string).
Proof.
  split; [vm_compute; left|].
  split; [vm_compute; reflexivity|].
  split; [vm_compute; reflexivity|].
  by apply elem_of_singleton.
Qed.

Lemma lower_char_lowercase (c : ascii) :
  c ∈ Str.chars ascii_lowercase → Str.lower_char c = c.
Proof.
  intros H. apply list_elem_of_In in H. cbn in H.
  repeat (destruct H as [<-|H]; [reflexivity|]). done.
Qed.

(** Lowercasing a string does not lower the count of a lowercase
    letter. *)
Lemma count_lower_ge (q : string) (letter : ascii) :
  letter ∈ Str.chars ascii_lowercase → Str.count q letter <= Str.count (Str.lower q) letter.
Proof.
  intros Hl%lower_char_lowercase. unfold Str.count, Str.lower. rewrite chars_join.
  apply inj_le. induction (Str.chars q) as [|c l IH]; cbn; [done|].
  destruct (ascii_dec c letter) as [->|Hne].
  - rewrite Hl. destruct (ascii_dec letter letter); [lia | done].
  - destruct (ascii_dec (Str.lower_char c) letter); lia.
Qed.

(** C3. On the table written by [generate_lookup], a word of the index
    that has the signature of the lowercased query is in the result of
    [get_results] iff it is not the lowercased query itself; hence the
    whole word-set stored under the query's own signature reaches the
    result, the lowercased query alone taken out. The words that have the
    signature of the query as it was typed are in the result likewise. *)
Theorem anagrams_of_query_retained (fs : FS) (path : string) (fs' : FS) (q : string) :
  generate_lookup fs path = Some fs' →
  ∃ idx R, lookup_p fs' = Some idx ∧ get_results fs' q = Some R
    ∧ (∀ w, in_index idx w → signature w = signature (Str.lower q) →
         (w ∈ R ↔ w ≠ Str.lower q))
    ∧ (∀ words, anagrams idx !! signature (Str.lower q) = Some words →
         words ∖ {[ Str.lower q ]} ⊆ R)
    ∧ (∀ w, in_index idx w → signature w = signature q → w ≠ Str.lower q → w ∈ R).
Proof.
  intros Hgen.
  destruct (get_results_built fs path fs' q Hgen) as (idx & Hidx & Hinv & _ & Hget).
  destruct (query_spec idx q Hinv) as (R & HR & Hspec).
  exists idx, R. split; [done|]. split; [by rewrite Hget|].
  assert (Hkey : ∀ w s words, anagrams idx !! s = Some words → w ∈ words →
            s = signature (Str.lower q) → w ≠ Str.lower q → w ∈ R).
  { intros w s words Hs Hw -> Hne. apply Hspec. split; [|done].
    exists (signature (Str.lower q)), words. split; [done|]. split; [|done].
    rewrite vectorize_word_signature. apply dominated_refl, vectorize_word_length. }
  split; [|split].
  - intros w (s & words & Hs & Hw) Hsig. split.
    + intros HwR. by apply Hspec in HwR as [_ Hne].
    + intros Hne. apply (Hkey w s words Hs Hw); [|done].
      by rewrite <- (index_inv_signature idx s w words Hinv Hs Hw).
  - intros words Hs w [Hw Hne%not_elem_of_singleton]%elem_of_difference.
    by apply (Hkey w _ words Hs Hw).
  - intros w (s & words & Hs & Hw) Hsig Hne. apply Hspec. split; [|done].
    exists s, words. split; [done|]. split; [|done].
    rewrite <- (index_inv_signature idx s w words Hinv Hs Hw), Hsig.
    rewrite vectorize_word_signature. apply dominated_letters_within.
    intros letter Hletter. by apply count_lower_ge.
Qed.

Lemma anagrams_of_query_retained_witness :
  ∃ idx R, lookup_p sample_fs_built = Some idx ∧ get_results sample_fs_built "Arc" = Some R
    ∧ (∀ w, in_index idx w → signature w = signature (Str.lower "Arc") →
         (w ∈ R ↔ w ≠ Str.lower "Arc"))
    ∧ (∀ words, anagrams idx !! signature (Str.lower "Arc") = Some words →
         words ∖ {[ Str.lower "Arc" ]} ⊆ R)
    ∧ (∀ w, in_index idx w → signature w = signature "Arc" → w ≠ Str.lower "Arc" → w ∈ R).
Proof.
  apply (anagrams_of_query_retained sample_fs "words.txt" sample_fs_built "Arc").
  vm_compute. reflexivity.
Defined.

(** ** Vectors and lengths *)

Lemma vector_sum_mono {A} (f g : A → Z) (l : list A) :
  (∀ x, x ∈ l → f x <= g x) → vector_sum (map f l) <= vector_sum (map g l).
Proof.
  induction l as [|x l IH]; intros H; cbn; [lia|].
  assert (f x <= g x) by (apply H; left).
  assert (vector_sum (map f l) <= vector_sum (map g l)) by (apply IH; intros y Hy; apply H; by right).
  unfold vector_sum in *. lia.
Qed.

(** Adding one character to a word adds one to the sum of the counts of
    distinct letters if the character is one of them, and nothing
    otherwise. *)
Lemma occ_sum_cons (letters : list ascii) (c : ascii) (l : list ascii) :
  NoDup letters →
  vector_sum (map (fun x => Z.of_nat (count_occ ascii_dec (c :: l) x)) letters)
  = (if bool_decide (c ∈ letters) then 1 else 0)
    + vector_sum (map (fun x => Z.of_nat (count_occ ascii_dec l x)) letters).
Proof.
  induction 1 as [|x letters Hx Hnd IH]; [done|].
  cbn [map vector_sum foldr]. fold (vector_sum (map (fun x => Z.of_nat (count_occ ascii_dec (c :: l) x)) letters)).
  fold (vector_sum (map (fun x => Z.of_nat (count_occ ascii_dec l x)) letters)).
  rewrite IH. cbn [count_occ].
  destruct (ascii_dec c x) as [->|Hne].
  - rewrite (bool_decide_eq_true_2 (x ∈ x :: letters)) by left.
    rewrite (bool_decide_eq_false_2 (x ∈ letters)) by done. lia.
  - destruct (decide (c ∈ letters)) as [Hin|Hnin].
    + rewrite (bool_decide_eq_true_2 (c ∈ x :: letters)) by (by right).
      rewrite (bool_decide_eq_true_2 (c ∈ letters)) by done. lia.
    + rewrite (bool_decide_eq_false_2 (c ∈ x :: letters)).
      * rewrite (bool_decide_eq_false_2 (c ∈ letters)) by done. lia.
      * intros [?|?]%elem_of_cons; done.
Qed.

Lemma occ_sum_le (letters : list ascii) (l : list ascii) :
  NoDup letters →
  vector_sum (map (fun x => Z.of_nat (count_occ ascii_dec l x)) letters) <= Z.of_nat (length l).
Proof.
  intros Hnd. induction l as [|c l IH].
  - cbn [count_occ]. induction letters as [|x letters IHl]; [done|].
    apply NoDup_cons in Hnd as [_ Hnd]. specialize (IHl Hnd). cbn in *. unfold vector_sum in *. lia.
  - rewrite occ_sum_cons by done. cbn [length]. case_bool_decide; lia.
Qed.

Lemma occ_sum_eq (letters : list ascii) (l : list ascii) :
  NoDup letters → Forall (fun c => c ∈ letters) l →
  vector_sum (map (fun x => Z.of_nat (count_occ ascii_dec l x)) letters) = Z.of_nat (length l).
Proof.
  intros Hnd. induction 1 as [|c l Hc _ IH].
  - cbn [count_occ]. clear Hnd. induction letters as [|x letters IHl]; [done|].
    cbn in *. unfold vector_sum in *. lia.
  - rewrite occ_sum_cons by done. cbn [length].
    rewrite bool_decide_eq_true_2 by done. lia.
Qed.

Lemma ascii_lowercase_NoDup : NoDup (Str.chars ascii_lowercase).
Proof. apply (bool_decide_unpack _). vm_compute. exact I. Qed.

(** The entries of the vector of a word add up to at most its length. *)
Lemma vector_sum_le_len (w : string) :
  vector_sum (vectorize_word w) <= Z.of_nat (Str.len w).
Proof.
  rewrite vectorize_word_map, len_chars. unfold Str.count.
  apply occ_sum_le, ascii_lowercase_NoDup.
Qed.

(** They add up to the length when the word has lowercase letters
    only. *)
Lemma vector_sum_lowercase (w : string) :
  lowercase_word w → vector_sum (vectorize_word w) = Z.of_nat (Str.len w).
Proof.
  intros Hw. rewrite vectorize_word_map, len_chars. unfold Str.count.
  apply occ_sum_eq; [apply ascii_lowercase_NoDup|].
  eapply Forall_impl; [exact Hw|]. intros c Hc. cbn beta in Hc.
  unfold is_lowercase in Hc. by apply bool_decide_eq_true in Hc.
Qed.

Lemma dominated_vector_sum (w q : string) :
  dominated (vectorize_word w) (vectorize_word q) →
  vector_sum (vectorize_word w) <= vector_sum (vectorize_word q).
Proof.
  intros H%dominated_letters_within. rewrite !vectorize_word_map.
  by apply vector_sum_mono.
Qed.

Lemma len_lower (q : string) : Str.len (Str.lower q) = Str.len q.
Proof. rewrite !len_chars. unfold Str.lower. by rewrite chars_join, length_map. Qed.

(** C4, as the program has it. On the table written by
    [generate_lookup], a word of the result of [get_results q] that is
    made of lowercase letters a-z only is not longer than [q]; with a word
    list of lowercase words no result is longer than the query. *)
Theorem length_bound_lowercase
    (fs : FS) (path : string) (fs' : FS) (q : string) (R : gset string) (w : string) :
  generate_lookup fs path = Some fs' →
  get_results fs' q = Some R →
  w ∈ R →
  lowercase_word w →
  (Str.len w ≤ Str.len q)%nat.
Proof.
  intros Hgen Hget Hw Hlow.
  destruct (get_results_built fs path fs' q Hgen) as (idx & _ & Hinv & _ & Hquery).
  destruct (query_spec idx q Hinv) as (R' & HR' & Hspec).
  rewrite Hquery, HR' in Hget. injection Hget as ->.
  apply Hspec in Hw as [(s & words & Hs & Hd & Hw) _].
  rewrite <- (index_inv_signature idx s w words Hinv Hs Hw), vectorize_word_signature in Hd.
  apply dominated_vector_sum in Hd.
  rewrite (vector_sum_lowercase w Hlow) in Hd.
  pose proof (vector_sum_le_len (Str.lower q)) as Hq.
  rewrite len_lower in Hq. lia.
Qed.

Lemma length_bound_lowercase_witness : (Str.len "arc" ≤ Str.len "cars")%nat.
Proof.
  apply (length_bound_lowercase sample_fs "words.txt" sample_fs_built "cars"
           {[ "arc"; "car"; "ac"; "a" ]} "arc").
  - vm_compute. reflexivity.
  - vm_compute. reflexivity.
  - apply (bool_decide_unpack _). vm_compute. exact I.
  - apply (bool_decide_unpack _). vm_compute. exact I.
Defined.

(** C4 as stated fails on a word list with capitals: the key [ABC] has
    the all-zero vector, passes the test against any query, and its
    three-letter word is returned for the one-letter query [a]. *)
Lemma length_bound_fails_on_capitals :
  generate_lookup upper_fs "words.txt" = Some upper_fs_built
  ∧ get_results upper_fs_built "a" = Some {[ "ABC" ]}
  ∧ "ABC" ∈ ({[ "ABC" ]} : gset string)
  ∧ (Str.len "a" < Str.len "ABC")%nat.
Proof.
  split; [vm_compute; reflexivity|].
  split; [vm_compute; reflexivity|].
  split; [by apply elem_of_singleton|].
  vm_compute. lia.
Qed.

(** ** The empty query *)

Lemma count_pos_of_elem (s : string) (c : ascii) : c ∈ Str.chars s → 0 < Str.count s c.
Proof.
  intros Hc%list_elem_of_In. unfold Str.count.
  pose proof (proj1 (count_occ_In ascii_dec (Str.chars s) c) Hc). lia.
Qed.

(** C6. On a table that satisfies the co-keying invariant and whose keys
    each contain a lowercase letter a-z, the empty query has an empty
    result: its vector is all zero and each key has a positive count. *)
Theorem empty_query_empty_result (fs : FS) (idx : Index) :
  lookup_p fs = Some idx →
  index_inv idx →
  (∀ s, s ∈ dom (anagrams idx) → ∃ c, c ∈ Str.chars s ∧ is_lowercase c = true) →
  vectorize_word (Str.lower "") = replicate 26 0
  ∧ get_results fs "" = Some ∅.
Proof.
  intros Hidx Hinv Hkeys. split; [reflexivity|].
  unfold get_results. rewrite Hidx; cbn.
  destruct (query_spec idx "" Hinv) as (R & HR & Hspec).
  rewrite HR. f_equal. apply leibniz_equiv, elem_of_equiv_empty. intros w Hw.
  apply Hspec in Hw as [(s & words & Hs & Hd & _) _].
  destruct (Hkeys s) as (c & Hc & Hlow); [by apply elem_of_dom|].
  apply dominated_letters_within in Hd.
  unfold is_lowercase in Hlow. apply bool_decide_eq_true in Hlow.
  specialize (Hd c Hlow). apply count_pos_of_elem in Hc.
  change (Str.count (Str.lower "") c) with 0 in Hd. lia.
Qed.

Lemma empty_query_empty_result_witness :
  vectorize_word (Str.lower "") = replicate 26 0
  ∧ get_results sample_fs_built "" = Some ∅.
Proof.
  apply (empty_query_empty_result sample_fs_built (build_index sample_text)).
  - reflexivity.
  - apply (bool_decide_unpack _). vm_compute. exact I.
  - intros s Hs.
    assert (H : set_Forall (fun s => Exists (fun c => is_lowercase c = true) (Str.chars s))
                  (dom (anagrams (build_index sample_text))))
      by (apply (bool_decide_unpack _); vm_compute; exact I).
    apply H in Hs. by apply Exists_exists in Hs.
Defined.

(** ** The co-keying invariant *)

Lemma index_word_stmts (word : string) (idx : Index) :
  index_word word idx
  = match anagrams idx !! signature word with
    | None => stmt_add word (stmt_vectors word (stmt_new word idx))
    | Some _ => stmt_add word idx
    end.
Proof. unfold index_word. by destruct (anagrams idx !! signature word). Qed.

(** A step does not change the table that the loop ends with. *)
Lemma loop_step_finish (st st' : loop_state) :
  loop_step st st' → finish st' = finish st.
Proof.
  intros [idx|line rest idx Hb|line rest idx Hb|word rest idx Hnew|word rest idx [ws Hk]
         |word rest idx|word rest idx Hk]; cbn.
  - done.
  - by rewrite decide_True.
  - by rewrite decide_False.
  - by rewrite index_word_stmts, Hnew.
  - by rewrite index_word_stmts, Hk.
  - done.
  - done.
Qed.

Lemma loop_step_state_inv (st st' : loop_state) :
  loop_step st st' → state_inv st → state_inv st'.
Proof.
  intros [idx|line rest idx Hb|line rest idx Hb|word rest idx Hnew|word rest idx Hk
         |word rest idx|word rest idx Hk];
    unfold state_inv, stmt_new, stmt_vectors, stmt_add; cbn [anagrams vectors].
  - done.
  - done.
  - done.
  - intros (Hdom & Hvec & Hana). split; [|split; [|split]].
    + by rewrite dom_insert_L, Hdom.
    + rewrite <- Hdom. by apply not_elem_of_dom.
    + done.
    + apply map_Forall_insert_2; [|done]. by intros w Hw%not_elem_of_empty.
  - done.
  - intros (Hdom & Hnin & Hvec & Hana). unfold index_inv. cbn [anagrams vectors].
    split; [split; [|split]|].
    + by rewrite dom_insert_L.
    + by apply map_Forall_insert_2.
    + done.
    + apply elem_of_dom. rewrite Hdom. apply elem_of_union. left. by apply elem_of_singleton.
  - intros [(Hdom & Hvec & Hana) _]. unfold index_inv. cbn [anagrams vectors].
    split; [|split].
    + by rewrite dom_alter_L.
    + done.
    + intros s words Hs. destruct (decide (signature word = s)) as [<-|Hne].
      * rewrite lookup_alter_eq in Hs. destruct Hk as [old Hold]. rewrite Hold in Hs.
        injection Hs as <-.
        intros w [Hw| ->%elem_of_singleton]%elem_of_union; [|done]. by apply (Hana _ _ Hold).
      * rewrite lookup_alter_ne in Hs by done. by apply (Hana _ _ Hs).
Qed.

Lemma loop_reachable (st st' : loop_state) :
  rtc loop_step st st' → state_inv st → state_inv st' ∧ finish st' = finish st.
Proof.
  induction 1 as [|st1 st2 st3 Hstep _ IH]; [done|]. intros Hinv.
  destruct IH as [Hinv' Hfin]; [by eapply loop_step_state_inv|].
  split; [done|]. rewrite Hfin. by apply loop_step_finish.
Qed.

(** One iteration, statement by statement. *)
Lemma loop_iteration (line : string) (rest : list string) (idx : Index) :
  Str.rstrip line ≠ "" →
  rtc loop_step (AtWhile, line :: rest, idx) (AtWhile, rest, index_word (Str.rstrip line) idx).
Proof.
  intros Hne. eapply rtc_l; [by apply step_read|].
  rewrite index_word_stmts.
  destruct (anagrams idx !! signature (Str.rstrip line)) as [words|] eqn:E.
  - eapply rtc_l; [apply step_known; by eexists|].
    eapply rtc_l; [apply step_add; by eexists|]. apply rtc_refl.
  - eapply rtc_l; [by apply step_new|].
    eapply rtc_l; [apply step_vectors|].
    eapply rtc_l; [apply step_add; cbn; rewrite lookup_insert_eq; by eexists|]. apply rtc_refl.
Qed.

Lemma run_from_while (lines : list string) (idx : Index) :
  ∃ rest', rtc loop_step (AtWhile, lines, idx) (AtEnd, rest', read_words lines idx).
Proof.
  revert idx. induction lines as [|line rest IH]; intros idx; cbn.
  - exists []. apply rtc_once. constructor.
  - destruct (decide (Str.rstrip line = "")) as [E|E].
    + exists rest. apply rtc_once. by constructor.
    + destruct (IH (index_word (Str.rstrip line) idx)) as [rest' Hrun].
      exists rest'. etrans; [by apply loop_iteration | done].
Qed.

(** The loop runs to its end from each state that satisfies [state_inv],
    and ends with the table [finish] of the state. *)
Lemma run_to_end (st : loop_state) :
  state_inv st → ∃ rest', rtc loop_step st (AtEnd, rest', finish st).
Proof.
  destruct st as [[pc rest] idx]. destruct pc as [|word|word|word|]; cbn; intros Hinv.
  - apply run_from_while.
  - destruct (run_from_while rest (index_word word idx)) as [rest' Hrun].
    exists rest'. etrans; [|exact Hrun]. rewrite index_word_stmts.
    destruct (anagrams idx !! signature word) as [words|] eqn:E.
    + eapply rtc_l; [apply step_known; by eexists|].
      apply rtc_once, step_add. by eexists.
    + eapply rtc_l; [by apply step_new|].
      eapply rtc_l; [apply step_vectors|].
      apply rtc_once, step_add. cbn. rewrite lookup_insert_eq. by eexists.
  - destruct Hinv as (Hdom & _ & _ & _).
    destruct (run_from_while rest (stmt_add word (stmt_vectors word idx))) as [rest' Hrun].
    exists rest'. eapply rtc_l; [apply step_vectors|].
    eapply rtc_l; [|exact Hrun]. apply step_add. cbn.
    apply elem_of_dom. rewrite Hdom. apply elem_of_union. left. by apply elem_of_singleton.
  - destruct Hinv as [_ Hk].
    destruct (run_from_while rest (stmt_add word idx)) as [rest' Hrun].
    exists rest'. eapply rtc_l; [by apply step_add | exact Hrun].
  - exists rest. apply rtc_refl.
Qed.

Lemma state_inv_parts (pc : point) (rest : list string) (idx : Index) :
  state_inv (pc, rest, idx) →
  map_Forall (fun s v => v = vectorize_word s) (vectors idx)
  ∧ map_Forall (fun s words => set_Forall (fun w => signature w = s) words) (anagrams idx).
Proof.
  destruct pc; cbn.
  - by intros (_ & ? & ?).
  - by intros (_ & ? & ?).
  - by intros (_ & _ & ? & ?).
  - by intros [(_ & ? & ?) _].
  - by intros (_ & ? & ?).
Qed.

(** The state between the two assignments of the first iteration on the
    one-word list [arc]. *)
Lemma one_word_mid_reachable :
  rtc loop_step (AtWhile, open_lines one_word_text, empty_index)
                (AtVectors "arc", [], stmt_new "arc" empty_index).
Proof.
  change (open_lines one_word_text) with ["arc" +:+ nl].
  eapply rtc_l; [apply (step_read ("arc" +:+ nl) [] empty_index); by vm_compute|].
  change (Str.rstrip ("arc" +:+ nl)) with "arc".
  apply rtc_once, step_new. apply lookup_empty.
Qed.

(** C8, as the program has it. In every state that the loop of
    [generate_lookup] goes through, statement by statement and from the
    empty dictionaries on, each key [s] of [vectors] has the vector
    [vectorize_word s] and each word stored under a key [s] of [anagrams]
    sorts to [s]; the two dictionaries have the same keys at every program
    point but one: between [anagrams[sorted_word] = set()] and
    [vectors[sorted_word] = vectorize_word(sorted_word)], for a new key,
    [anagrams] has that key and [vectors] does not have it yet. From each
    state the loop runs to its end, and the table it ends with, which is
    the one written, satisfies the whole invariant. *)
Theorem co_keying_invariant (text : string) (pc : point) (rest : list string) (idx : Index) :
  rtc loop_step (AtWhile, open_lines text, empty_index) (pc, rest, idx) →
  (match pc with
   | AtVectors word =>
       dom (anagrams idx) = {[ signature word ]} ∪ dom (vectors idx)
       ∧ (signature word ∉ dom (vectors idx))
   | _ => dom (anagrams idx) = dom (vectors idx)
   end)
  ∧ (∀ s, s ∈ dom (vectors idx) → vectors idx !! s = Some (vectorize_word s))
  ∧ (∀ s words w, anagrams idx !! s = Some words → w ∈ words → signature w = s)
  ∧ (∃ rest', rtc loop_step (pc, rest, idx) (AtEnd, rest', build_index text)
              ∧ ∀ st, ¬ loop_step (AtEnd, rest', build_index text) st)
  ∧ index_inv (build_index text).
Proof.
  intros Hrun.
  destruct (loop_reachable _ _ Hrun) as [Hinv Hfin]; [apply empty_index_inv|].
  change (finish (AtWhile, open_lines text, empty_index)) with (build_index text) in Hfin.
  destruct (state_inv_parts pc rest idx Hinv) as [Hvec Hana].
  split; [|split; [|split; [|split]]].
  - destruct pc; cbn in Hinv.
    + apply Hinv.
    + apply Hinv.
    + by destruct Hinv as (? & ? & _).
    + apply Hinv.
    + apply Hinv.
  - intros s [v Hv]%elem_of_dom. by rewrite Hv, (Hvec _ _ Hv).
  - intros s words w Hs Hw. by apply (Hana _ _ Hs).
  - destruct (run_to_end _ Hinv) as [rest' Hend]. rewrite Hfin in Hend.
    exists rest'. split; [done|]. intros st Hst. inversion Hst.
  - apply build_index_inv.
Qed.

Lemma co_keying_invariant_witness :
  (dom (anagrams (stmt_new "arc" empty_index))
   = {[ signature "arc" ]} ∪ dom (vectors (stmt_new "arc" empty_index))
   ∧ (signature "arc" ∉ dom (vectors (stmt_new "arc" empty_index))))
  ∧ (∃ rest', rtc loop_step (AtVectors "arc", [], stmt_new "arc" empty_index)
                            (AtEnd, rest', build_index one_word_text))
  ∧ index_inv (build_index one_word_text).
Proof.
  destruct (co_keying_invariant one_word_text (AtVectors "arc") [] (stmt_new "arc" empty_index))
    as (Hkeys & _ & _ & (rest' & Hend & _) & Hinv).
  - change (open_lines one_word_text) with ["arc" +:+ nl].
    eapply rtc_l; [apply (step_read ("arc" +:+ nl) [] empty_index); by vm_compute|].
    change (Str.rstrip ("arc" +:+ nl)) with "arc".
    apply rtc_once, step_new. apply lookup_empty.
  - split; [exact Hkeys|]. split; [by exists rest' | exact Hinv].
Defined.

(** C8 as stated fails inside an iteration: on the one-word list [arc],
    after [anagrams["acr"] = set()] and before [vectors["acr"] = ...], the
    loop is in a state where [anagrams] has the key [acr] and [vectors] has
    no key. *)
Lemma co_keying_broken_inside_iteration :
  rtc loop_step (AtWhile, open_lines one_word_text, empty_index)
                (AtVectors "arc", [], stmt_new "arc" empty_index)
  ∧ anagrams (stmt_new "arc" empty_index) = {[ "acr" := ∅ ]}
  ∧ vectors (stmt_new "arc" empty_index) = ∅
  ∧ dom (anagrams (stmt_new "arc" empty_index)) ≠ dom (vectors (stmt_new "arc" empty_index)).
Proof.
  split; [apply one_word_mid_reachable|].
  split; [vm_compute; reflexivity|]. split; [reflexivity|].
  intros Heq. assert (Hin : "acr" ∈ dom (anagrams (stmt_new "arc" empty_index))).
  { apply elem_of_dom. by exists ∅. }
  rewrite Heq in Hin. cbn in Hin. rewrite dom_empty_L in Hin. by apply not_elem_of_empty in Hin.
Qed.

(** ** [main] *)

(** C10. When ["lookup.p"] exists, [main] does not call
    [generate_lookup]: the file system is left as it was, the result set
    is [query] of the stored table on the input, and what is printed is
    computed from that set and the input. Two runs on file systems with
    the same ["lookup.p"] and the same input therefore agree on the result
    set and on the output, whatever their word lists and [listpath]
    arguments. *)
Theorem main_ignores_wordlist
    (fs1 fs2 : FS) (idx : Index) (input listpath1 listpath2 : string) :
  lookup_p fs1 = Some idx →
  lookup_p fs2 = Some idx →
  main_results <$> main fs1 input listpath1 = query idx input
  ∧ main_fs <$> main fs1 input listpath1 = (fun _ => fs1) <$> query idx input
  ∧ main_results <$> main fs1 input listpath1 = main_results <$> main fs2 input listpath2
  ∧ main_printed <$> main fs1 input listpath1 = main_printed <$> main fs2 input listpath2.
Proof.
  intros H1 H2.
  assert (Hmain : ∀ fs listpath, lookup_p fs = Some idx →
     main fs input listpath
     = (fun R => (fs, R, print_results input R)) <$> query idx input).
  { intros fs listpath H. unfold main, isfile_lookup, get_results. rewrite H. cbn.
    rewrite H. cbn. by destruct (query idx input). }
  rewrite (Hmain fs1 listpath1 H1), (Hmain fs2 listpath2 H2).
  destruct (query idx input); done.
Qed.

Lemma main_ignores_wordlist_witness :
  main_results <$> main sample_fs_built "cars" "words.txt"
  = main_results <$> main (mkFS ∅ (Some (build_index sample_text))) "cars" "other.txt".
Proof.
  apply (main_ignores_wordlist sample_fs_built (mkFS ∅ (Some (build_index sample_text)))
           (build_index sample_text) "cars" "words.txt" "other.txt"); reflexivity.
Defined.

(** ** Reading the word list *)

(** Each indexed word is a line with its trailing whitespace removed. *)
Lemma words_read_stripped (lines : list string) (w : string) :
  w ∈ words_read lines → w ≠ "" ∧ ∃ line, line ∈ lines ∧ w = Str.rstrip line.
Proof.
  induction lines as [|line rest IH]; cbn; [by intros ?%elem_of_nil|].
  destruct (decide (Str.rstrip line = "")) as [E|E]; [by intros ?%elem_of_nil|].
  intros [->|Hw]%elem_of_cons.
  - split; [done|]. exists line. split; [left | done].
  - destruct (IH Hw) as (Hne & l & Hl & ->). split; [done|]. exists l. split; [by right | done].
Qed.

(** Without a blank line every line gives a word. *)
Lemma words_read_no_blank (lines : list string) :
  Forall (fun line => Str.rstrip line ≠ "") lines →
  words_read lines = map Str.rstrip lines.
Proof.
  induction 1 as [|line rest Hne _ IH]; cbn; [done|].
  destruct (decide (Str.rstrip line = "")); [done | by rewrite IH].
Qed.

(** The loop stops at the first blank line: what follows it is not
    read. *)
Lemma words_read_blank (before after : list string) (blank : string) :
  Str.rstrip blank = "" →
  words_read (before ++ blank :: after) = words_read before.
Proof.
  intros Hb. induction before as [|line rest IH]; cbn.
  - by rewrite decide_True.
  - destruct (decide (Str.rstrip line = "")); [done | by rewrite IH].
Qed.

(** C5 on the three-line file [arc], blank, [car]: both [arc] and [car]
    are non-blank tokens of the file, but the loop of [generate_lookup]
    ends at the blank line, so that the table holds the word [arc] alone
    and [car] is in no word-set. *)
Theorem blank_line_ends_reading :
  open_lines blank_text = ["arc" +:+ nl; nl; "car" +:+ nl]
  ∧ spec_tokens blank_text = ["arc"; "car"]
  ∧ indexed_words blank_text = ["arc"]
  ∧ anagrams (build_index blank_text) = {[ "acr" := {[ "arc" ]} ]}
  ∧ vectors (build_index blank_text) = {[ "acr" := vectorize_word "acr" ]}
  ∧ ¬ in_index (build_index blank_text) "car".
Proof.
  split; [reflexivity|]. split; [reflexivity|]. split; [reflexivity|].
  split; [vm_compute; reflexivity|]. split; [vm_compute; reflexivity|].
  rewrite in_index_build_index.
  change (indexed_words blank_text) with ["arc"].
  intros [H|H%elem_of_nil]%elem_of_cons; [discriminate | done].
Qed.

(** ** [print_results] *)

Lemma group_word_lookup (acc : gmap nat (list string)) (w : string) (n : nat) :
  group_word acc w !! n
  = if decide (Str.len w = n) then Some (default [] (acc !! n) ++ [w]) else acc !! n.
Proof.
  unfold group_word. destruct (decide (Str.len w = n)) as [<-|Hne].
  - destruct (acc !! Str.len w) as [ws|] eqn:E; cbn.
    + by rewrite lookup_alter_eq, E.
    + by rewrite lookup_alter_eq, lookup_insert_eq.
  - destruct (acc !! Str.len w) as [ws|] eqn:E; cbn.
    + by rewrite lookup_alter_ne.
    + by rewrite lookup_alter_ne, lookup_insert_ne.
Qed.

Lemma foldl_group_word_lookup (l : list string) (acc : gmap nat (list string)) (n : nat) :
  foldl group_word acc l !! n
  = match acc !! n, List.filter (fun w => bool_decide (Str.len w = n)) l with
    | None, [] => None
    | None, ws => Some ws
    | Some ws0, ws => Some (ws0 ++ ws)
    end.
Proof.
  revert acc. induction l as [|w l IH]; intros acc; cbn.
  - destruct (acc !! n); [by rewrite app_nil_r | done].
  - rewrite IH, group_word_lookup. case_bool_decide as Hlen.
    + rewrite decide_True by done. destruct (acc !! n) as [ws0|]; cbn.
      * by rewrite <- app_assoc.
      * done.
    + rewrite decide_False by done. done.
Qed.

(** The groups: the group of length [n] exists when a word of that
    length is in the set, and holds the words of that length. *)
Lemma group_by_length_lookup (R : gset string) (n : nat) (ws : list string) :
  group_by_length R !! n = Some ws ↔
  ws = List.filter (fun w => bool_decide (Str.len w = n)) (elements R) ∧ ws ≠ [].
Proof.
  unfold group_by_length. rewrite foldl_group_word_lookup, lookup_empty.
  destruct (List.filter _ (elements R)) as [|w l]; split.
  - done.
  - by intros [-> ?].
  - intros H. by injection H as <-.
  - by intros [-> _].
Qed.

(** The blocks that are printed: one for each length from [len q] down
    to 2 that has a group, in this order. *)
Lemma print_results_blocks (q : string) (R : gset string) :
  print_results q R
  = omap (fun n => let ws := List.filter (fun w => bool_decide (Str.len w = n)) (elements R) in
                   match ws with [] => None | _ => Some (n, ws) end)
         (rev (seq 2 (Str.len q - 1))).
Proof.
  unfold print_results, range_down. apply list_omap_ext, Forall2_same_length_lookup.
  split; [done|]. intros i n n' Hn Hn'. rewrite Hn in Hn'. injection Hn' as <-.
  destruct (group_by_length R !! n) as [ws|] eqn:E; cbn.
  - apply group_by_length_lookup in E as [-> Hne].
    by destruct (List.filter _ (elements R)).
  - destruct (List.filter _ (elements R)) as [|w l] eqn:F; [done|].
    assert (group_by_length R !! n = Some (w :: l)) as H; [|by rewrite H in E].
    apply group_by_length_lookup. by rewrite F.
Qed.

(** No block is printed for the length 1 (nor for 0). *)
Lemma print_results_min_length (q : string) (R : gset string) (n : nat) (ws : list string) :
  (n, ws) ∈ print_results q R → (2 ≤ n ≤ Str.len q)%nat.
Proof.
  rewrite print_results_blocks. intros (m & Hm & Hsome)%list_elem_of_omap.
  apply list_elem_of_In, (proj2 (in_rev _ _)), list_elem_of_In, elem_of_seq in Hm.
  cbn in Hsome.
  destruct (List.filter _ (elements R)); [done|]. injection Hsome as <- _. lia.
Qed.

(** C9 on the result set of the query [cars] over the word list [arc],
    [car], [ac], [a], [cars]: the set holds the one-letter word [a], and
    [print_results] emits the blocks of lengths 3 and 2 only; the loop over
    [range(len(search_input), 1, -1)] ends at 2 and the group of length 1,
    which exists, is not printed. *)
Theorem print_results_omits_single_letters :
  main_results <$> main sample_fs "cars" "words.txt" = Some {[ "arc"; "car"; "ac"; "a" ]}
  ∧ group_by_length {[ "arc"; "car"; "ac"; "a" ]} !! 1%nat = Some ["a"]
  ∧ range_down (Str.len "cars") 1 = [4; 3; 2]%nat
  ∧ (main_printed <$> main sample_fs "cars" "words.txt")
    = Some (print_results "cars" {[ "arc"; "car"; "ac"; "a" ]})
  ∧ (print_results "cars" {[ "arc"; "car"; "ac"; "a" ]}).*1 = [3; 2]%nat
  ∧ ∀ q R ws, (1%nat, ws) ∉ print_results q R.
Proof.
  split; [vm_compute; reflexivity|]. split; [vm_compute; reflexivity|].
  split; [reflexivity|]. split; [vm_compute; reflexivity|].
  split; [vm_compute; reflexivity|].
  intros q R ws H%print_results_min_length. lia.
Qed.

(** * Further properties *)

(** ** Strings, continued *)

Lemma chars_app (a b : string) : Str.chars (a +:+ b) = Str.chars a ++ Str.chars b.
Proof.
  induction a as [|c a IH]; [done|].
  change (Str.chars (String c (a +:+ b)) = c :: (Str.chars a ++ Str.chars b)).
  change (c :: Str.chars (a +:+ b) = c :: (Str.chars a ++ Str.chars b)).
  by rewrite IH.
Qed.

Lemma lower_char_idemp (c : ascii) :
  Str.lower_char (Str.lower_char c) = Str.lower_char c.
Proof. destruct c as [[] [] [] [] [] [] [] []]; reflexivity. Qed.

Lemma lower_idemp (s : string) : Str.lower (Str.lower s) = Str.lower s.
Proof.
  unfold Str.lower. rewrite chars_join. rewrite map_map. f_equal.
  apply map_ext. intros c. apply lower_char_idemp.
Qed.

Lemma sorted_Sorted (s : string) : Sorted Str.char_le (Str.sorted s).
Proof. apply Sorted_merge_sort. apply _. Qed.

(** Two words have the same signature iff they have the same characters
    with the same multiplicities. *)
Lemma signature_eq_iff (w w' : string) :
  signature w = signature w' ↔ Str.chars w ≡ₚ Str.chars w'.
Proof.
  split.
  - intros H. rewrite <- (chars_signature w), <- (chars_signature w'). by rewrite H.
  - intros H. unfold signature. f_equal.
    apply (Sorted_unique Str.char_le); [apply sorted_Sorted..|].
    by rewrite !sorted_Permutation.
Qed.

Lemma len_signature (w : string) : Str.len (signature w) = Str.len w.
Proof. rewrite !len_chars. apply Permutation_length, chars_signature. Qed.

(** ** [vectorize_word], continued *)

Lemma occ_sum_filter (letters : list ascii) (l : list ascii) :
  NoDup letters →
  vector_sum (map (fun x => Z.of_nat (count_occ ascii_dec l x)) letters)
  = Z.of_nat (length (List.filter (fun c => bool_decide (c ∈ letters)) l)).
Proof.
  intros Hnd. induction l as [|c l IH].
  - cbn [count_occ List.filter length]. clear Hnd.
    induction letters as [|x letters IHl]; [done|]. cbn in *. unfold vector_sum in *. lia.
  - rewrite occ_sum_cons by done. rewrite IH. cbn [List.filter].
    destruct (bool_decide (c ∈ letters)); cbn [length]; lia.
Qed.

Lemma filter_length_eq_Forall {A} (P : A → bool) (l : list A) :
  length (List.filter P l) = length l ↔ Forall (fun x => P x = true) l.
Proof.
  assert (Hle : ∀ l', (length (List.filter P l') ≤ length l')%nat).
  { induction l' as [|x l' IH]; cbn; [lia|]. destruct (P x); cbn; lia. }
  induction l as [|x l IH]; cbn.
  - split; [constructor | done].
  - destruct (P x) eqn:E; cbn.
    + rewrite Forall_cons. split.
      * intros H. split; [done|]. apply IH. lia.
      * intros [_ H]. f_equal. by apply IH.
    + split.
      * intros H. specialize (Hle l). lia.
      * intros [H _]%Forall_cons. congruence.
Qed.

(** X1. The entries of [vectorize_word w] add up to the number of
    letters a-z of [w]: never more than [len w], and exactly [len w] iff
    [w] has no other character. *)
Theorem vectorize_word_total (w : string) :
  vector_sum (vectorize_word w) = Z.of_nat (count_lowercase w)
  ∧ vector_sum (vectorize_word w) <= Z.of_nat (Str.len w)
  ∧ (vector_sum (vectorize_word w) = Z.of_nat (Str.len w) ↔ lowercase_word w).
Proof.
  assert (H : vector_sum (vectorize_word w) = Z.of_nat (count_lowercase w)).
  { rewrite vectorize_word_map. unfold Str.count, count_lowercase.
    rewrite (occ_sum_filter _ _ ascii_lowercase_NoDup). done. }
  split; [done|]. split; [apply vector_sum_le_len|].
  rewrite H, len_chars. unfold count_lowercase, lowercase_word.
  rewrite <- filter_length_eq_Forall. lia.
Qed.

(** X2. The vector of a concatenation is the entry-wise sum of the
    vectors. *)
Theorem vectorize_word_app (a b : string) :
  vectorize_word (a +:+ b) = zip_with Z.add (vectorize_word a) (vectorize_word b).
Proof.
  rewrite !vectorize_word_map. unfold Str.count. rewrite chars_app.
  induction (Str.chars ascii_lowercase) as [|x letters IH]; [done|].
  cbn [map zip_with]. rewrite IH. f_equal. rewrite count_occ_app. lia.
Qed.

(** X3. On words of lowercase letters the vector determines the word up
    to the order of its letters: two such words with the same vector are
    permutations of each other, and have the same signature. *)
Theorem vectorize_word_injective (w w' : string) :
  lowercase_word w → lowercase_word w' →
  vectorize_word w = vectorize_word w' →
  Str.chars w ≡ₚ Str.chars w' ∧ signature w = signature w'.
Proof.
  intros Hw Hw' Hvec.
  assert (Hperm : Str.chars w ≡ₚ Str.chars w').
  { apply (Permutation_count_occ ascii_dec). intros x.
    destruct (decide (x ∈ Str.chars ascii_lowercase)) as [Hx|Hx].
    - apply list_elem_of_lookup_1 in Hx as [i Hi].
      pose proof (vectorize_word_lookup w i x Hi) as H1.
      pose proof (vectorize_word_lookup w' i x Hi) as H2.
      rewrite Hvec, H2 in H1. injection H1 as H1. unfold Str.count in H1. lia.
    - assert (Hnone : ∀ u, lowercase_word u → count_occ ascii_dec (Str.chars u) x = 0%nat).
      { intros u Hu. apply count_occ_not_In. intros Hin%list_elem_of_In.
        unfold lowercase_word in Hu. rewrite Forall_forall in Hu.
        specialize (Hu x Hin). unfold is_lowercase in Hu.
        by apply bool_decide_eq_true in Hu. }
      by rewrite !Hnone. }
  split; [done | by apply signature_eq_iff].
Qed.

Lemma vectorize_word_injective_witness :
  Str.chars "listen" ≡ₚ Str.chars "silent" ∧ signature "listen" = signature "silent".
Proof.
  apply (vectorize_word_injective "listen" "silent").
  - apply (bool_decide_unpack _). vm_compute. exact I.
  - apply (bool_decide_unpack _). vm_compute. exact I.
  - vm_compute. reflexivity.
Defined.

(** ** Lines and words *)

Lemma rstrip_chars_decomp (l : list ascii) :
  ∃ ws, l = Str.rstrip_chars l ++ ws ∧ Forall (fun c => Str.isspace c = true) ws.
Proof.
  induction l as [|c l (ws & Hl & Hws)]; cbn.
  - by exists [].
  - destruct (Str.rstrip_chars l) as [|r rs] eqn:E.
    + cbn in Hl. subst ws. destruct (Str.isspace c) eqn:Hc.
      * exists (c :: l). split; [done|]. by constructor.
      * by exists l.
    + exists ws. split; [|done]. cbn. by rewrite Hl at 1.
Qed.

Lemma rstrip_chars_last (l : list ascii) (c : ascii) :
  last (Str.rstrip_chars l) = Some c → Str.isspace c = false.
Proof.
  induction l as [|x l IH]; cbn; [done|].
  destruct (Str.rstrip_chars l) as [|r rs] eqn:E.
  - destruct (Str.isspace x) eqn:Hx; cbn; [done|]. by intros [= <-].
  - intros H. apply IH. by rewrite last_cons_cons in H.
Qed.

Lemma rstrip_chars_fixed (l : list ascii) :
  (∀ c, last l = Some c → Str.isspace c = false) → Str.rstrip_chars l = l.
Proof.
  induction l as [|x l IH]; cbn; [done|]. intros Hlast.
  destruct l as [|y l].
  - cbn. by rewrite (Hlast x).
  - rewrite IH; [done|]. intros c Hc. apply Hlast. by rewrite last_cons_cons.
Qed.

Lemma rstrip_chars_idemp (l : list ascii) :
  Str.rstrip_chars (Str.rstrip_chars l) = Str.rstrip_chars l.
Proof. apply rstrip_chars_fixed. intros c. apply rstrip_chars_last. Qed.

Lemma rstrip_chars_snoc_space (l : list ascii) (c : ascii) :
  Str.isspace c = true → Str.rstrip_chars (l ++ [c]) = Str.rstrip_chars l.
Proof.
  intros Hc. induction l as [|x l IH]; cbn.
  - by rewrite Hc.
  - by rewrite IH.
Qed.

Lemma rstrip_chars_elem (l : list ascii) (c : ascii) :
  c ∈ Str.rstrip_chars l → c ∈ l.
Proof.
  intros Hc. destruct (rstrip_chars_decomp l) as (ws & Hl & _).
  rewrite Hl. apply elem_of_app. by left.
Qed.

Lemma rstrip_idemp (s : string) : Str.rstrip (Str.rstrip s) = Str.rstrip s.
Proof. unfold Str.rstrip. by rewrite chars_join, rstrip_chars_idemp. Qed.

Lemma universal_newlines_no_CR (prev_cr : bool) (l : list ascii) :
  CR ∉ universal_newlines prev_cr l.
Proof.
  revert prev_cr. induction l as [|c l IH]; intros prev_cr; cbn.
  - apply not_elem_of_nil.
  - destruct (decide (c = CR)) as [->|Hcr].
    + apply not_elem_of_cons. split; [done | apply IH].
    + destruct (decide (c = LF)) as [->|Hlf].
      * destruct prev_cr; [apply IH|]. apply not_elem_of_cons. split; [done | apply IH].
      * apply not_elem_of_cons. split; [done | apply IH].
Qed.

Lemma split_lines_concat (l : list ascii) : concat (split_lines l) = l.
Proof.
  induction l as [|c l IH]; cbn; [done|].
  destruct (decide (c = LF)); cbn; [by rewrite IH|].
  destruct (split_lines l) as [|line lines]; cbn in *; by rewrite <- IH.
Qed.

(** A line is not empty and has a line feed at its end or nowhere. *)
Lemma split_lines_line (l : list ascii) (line : list ascii) :
  line ∈ split_lines l →
  ∃ body, (LF ∉ body) ∧ ((line = (body ++ [LF])) ∨ (line = body ∧ body ≠ [])).
Proof.
  revert line. induction l as [|c l IH]; intros line; cbn; [by intros ?%elem_of_nil|].
  destruct (decide (c = LF)) as [->|Hc].
  - intros [->|H]%elem_of_cons; [|by apply IH].
    exists []. split; [apply not_elem_of_nil | by left].
  - destruct (split_lines l) as [|first lines] eqn:E.
    + intros ->%list_elem_of_singleton. exists [c]. split; [|by right].
      apply not_elem_of_cons. split; [done | apply not_elem_of_nil].
    + intros [->|H]%elem_of_cons.
      * destruct (IH first) as (body & Hbody & Hline); [left|].
        exists (c :: body). split; [apply not_elem_of_cons; by split|].
        destruct Hline as [->|[-> _]]; [by left | by right].
      * apply IH. by right.
Qed.

Lemma split_lines_elem (l : list ascii) (line : list ascii) (c : ascii) :
  line ∈ split_lines l → c ∈ line → c ∈ l.
Proof.
  intros Hline Hc. rewrite <- (split_lines_concat l).
  apply list_elem_of_In, in_concat. exists line.
  split; by apply list_elem_of_In.
Qed.

(** X4. A word that [generate_lookup] stores is a line of the file
    without its trailing whitespace: it is not empty, [rstrip] leaves it
    unchanged, and it contains neither a line feed nor a carriage
    return. *)
Theorem indexed_word_clean (text : string) (w : string) :
  in_index (build_index text) w →
  w ≠ "" ∧ Str.rstrip w = w ∧ (LF ∉ Str.chars w) ∧ (CR ∉ Str.chars w).
Proof.
  intros Hw%in_index_build_index. unfold indexed_words in Hw.
  apply words_read_stripped in Hw as (Hne & line & Hline & ->).
  split; [done|]. split; [apply rstrip_idemp|].
  unfold open_lines in Hline. apply list_elem_of_fmap in Hline as (cs & -> & Hcs).
  unfold Str.rstrip. rewrite !chars_join. split.
  - destruct (split_lines_line _ _ Hcs) as (body & Hbody & [->|[-> _]]).
    + rewrite rstrip_chars_snoc_space by done. intros H%rstrip_chars_elem. done.
    + intros H%rstrip_chars_elem. done.
  - intros H%rstrip_chars_elem.
    apply (universal_newlines_no_CR false (Str.chars text)).
    by eapply split_lines_elem.
Qed.

Lemma indexed_word_clean_witness :
  "car" ≠ "" ∧ Str.rstrip "car" = "car" ∧ (LF ∉ Str.chars "car") ∧ (CR ∉ Str.chars "car").
Proof.
  apply (indexed_word_clean shuffled_text "car").
  apply (bool_decide_unpack _). vm_compute. exact I.
Defined.

(** ** The table that [generate_lookup] writes *)

Lemma build_index_words (text : string) (s : string) (words : gset string) :
  anagrams (build_index text) !! s = Some words →
  ∀ w, w ∈ words ↔ w ∈ indexed_words text ∧ signature w = s.
Proof.
  intros Hs w. pose proof (build_index_inv text) as Hinv. split.
  - intros Hw. split.
    + apply in_index_build_index. by exists s, words.
    + by eapply index_inv_signature.
  - intros [(s' & words' & Hs' & Hw')%in_index_build_index Hsig].
    pose proof (index_inv_signature _ s' w words' Hinv Hs' Hw') as E.
    rewrite Hsig in E. subst s'.
    rewrite Hs in Hs'. by injection Hs' as ->.
Qed.

(** A key is never stored with an empty word-set. *)
Lemma read_words_nonempty (lines : list string) (idx : Index) :
  map_Forall (fun _ words => words ≠ (∅ : gset string)) (anagrams idx) →
  map_Forall (fun _ words => words ≠ (∅ : gset string)) (anagrams (read_words lines idx)).
Proof.
  revert idx. induction lines as [|line rest IH]; intros idx H; cbn; [done|].
  destruct (decide (Str.rstrip line = "")); [done|].
  apply IH. rewrite index_word_anagrams. apply map_Forall_insert_2; [|done].
  intros Hempty. assert (Hin : Str.rstrip line ∈ (∅ : gset string)); [|by apply not_elem_of_empty in Hin].
  rewrite <- Hempty. apply elem_of_union. right. by apply elem_of_singleton.
Qed.

(** A word read from the file is stored under its signature. *)
Lemma build_index_key (text : string) (w : string) :
  w ∈ indexed_words text →
  ∃ words, anagrams (build_index text) !! signature w = Some words ∧ w ∈ words.
Proof.
  intros (s' & words' & Hs' & Hw')%in_index_build_index.
  rewrite (index_inv_signature _ s' w words' (build_index_inv text) Hs' Hw').
  by exists words'.
Qed.

Lemma build_index_word_set_nonempty (text : string) (s : string) (words : gset string) :
  anagrams (build_index text) !! s = Some words → words ≠ ∅.
Proof.
  intros Hs. refine (read_words_nonempty (open_lines text) empty_index _ s words Hs).
  apply map_Forall_empty.
Qed.

(** The word-set of a key in terms of the words read. *)
Lemma build_index_lookup (text : string) (s : string) (words : gset string) :
  anagrams (build_index text) !! s = Some words ↔
  words ≠ ∅ ∧ ∀ w, w ∈ words ↔ w ∈ indexed_words text ∧ signature w = s.
Proof.
  split.
  - intros Hs. split; [by eapply build_index_word_set_nonempty | by apply build_index_words].
  - intros [Hnonempty Hwords].
    apply set_choose_L in Hnonempty as [w Hw]. apply Hwords in Hw as [Hw <-].
    destruct (build_index_key text w Hw) as (words' & Hs & _).
    rewrite Hs. f_equal. apply set_eq. intros x.
    rewrite (build_index_words text _ words' Hs x). by rewrite Hwords.
Qed.

(** The vectors of the table in terms of its keys. *)
Lemma build_index_vectors (text : string) (s : string) :
  vectors (build_index text) !! s
  = (fun _ => vectorize_word s) <$> anagrams (build_index text) !! s.
Proof.
  pose proof (build_index_inv text) as Hinv.
  destruct (anagrams (build_index text) !! s) as [words|] eqn:Hs; cbn.
  - by eapply index_inv_vector.
  - destruct Hinv as (Hdom & _ & _). apply not_elem_of_dom. rewrite <- Hdom.
    by apply not_elem_of_dom.
Qed.

(** X5. The content of the table: the words stored under a key are
    exactly the words read from the file that sort to the key, a key is
    present exactly when such a word exists, and the vector of a key that
    is present is the vector of the key. *)
Theorem build_index_content (text : string) (s : string) :
  (∀ words, anagrams (build_index text) !! s = Some words ↔
     words ≠ ∅ ∧ ∀ w, w ∈ words ↔ w ∈ indexed_words text ∧ signature w = s)
  ∧ (is_Some (anagrams (build_index text) !! s) ↔
       ∃ w, w ∈ indexed_words text ∧ signature w = s)
  ∧ vectors (build_index text) !! s
    = (fun _ => vectorize_word s) <$> anagrams (build_index text) !! s.
Proof.
  split; [|split].
  - intros words. apply build_index_lookup.
  - split.
    + intros [words Hs].
      destruct (set_choose_L words (build_index_word_set_nonempty text s words Hs)) as [w Hw].
      exists w. by apply (build_index_words text s words Hs).
    + intros (w & Hw & <-). destruct (build_index_key text w Hw) as (words & Hs & _).
      by exists words.
  - apply build_index_vectors.
Qed.

(** X6. The table depends on the set of the words read only: two word
    lists with the same words, in any order and with any repetitions,
    give the same table. *)
Theorem build_index_set (text1 text2 : string) :
  (∀ w, w ∈ indexed_words text1 ↔ w ∈ indexed_words text2) →
  build_index text1 = build_index text2.
Proof.
  intros Hsame.
  assert (Hana : anagrams (build_index text1) = anagrams (build_index text2)).
  { apply map_eq. intros s.
    pose proof (build_index_lookup text1 s) as H1.
    pose proof (build_index_lookup text2 s) as H2.
    destruct (anagrams (build_index text1) !! s) as [words1|] eqn:E1.
    - symmetry. apply H2. destruct (proj1 (H1 words1) eq_refl) as [Hne Hw].
      split; [done|]. intros w. by rewrite Hw, Hsame.
    - destruct (anagrams (build_index text2) !! s) as [words2|] eqn:E2; [|done].
      apply H1. destruct (proj1 (H2 words2) eq_refl) as [Hne Hw].
      split; [done|]. intros w. by rewrite Hw, Hsame. }
  assert (Hvec : vectors (build_index text1) = vectors (build_index text2)).
  { apply map_eq. intros s.
    rewrite (build_index_vectors text1 s), (build_index_vectors text2 s).
    by rewrite Hana. }
  destruct (build_index text1), (build_index text2). cbn in *. by subst.
Qed.

Lemma build_index_set_witness : build_index shuffled_text = build_index sample_text.
Proof.
  apply build_index_set. intros w.
  change (indexed_words shuffled_text) with ["cars"; "a"; "car"; "ac"; "arc"; "car"].
  change (indexed_words sample_text) with ["arc"; "car"; "ac"; "a"; "cars"].
  rewrite !elem_of_cons, !elem_of_nil. tauto.
Defined.

(** X7. What is read: the words of the table are the stripped lines
    that come before the first blank line, or all the stripped lines when
    no line is blank. *)
Theorem indexed_words_until_blank (text : string) (before rest : list string) :
  open_lines text = before ++ rest →
  Forall (fun line => Str.rstrip line ≠ "") before →
  (rest = [] ∨ ∃ blank after, rest = blank :: after ∧ Str.rstrip blank = "") →
  indexed_words text = map Str.rstrip before
  ∧ ∀ w, in_index (build_index text) w ↔ w ∈ map Str.rstrip before.
Proof.
  intros Hlines Hbefore Hrest.
  assert (H : indexed_words text = map Str.rstrip before).
  { unfold indexed_words. rewrite Hlines.
    destruct Hrest as [->|(blank & after & -> & Hblank)].
    - rewrite app_nil_r. by apply words_read_no_blank.
    - rewrite words_read_blank by done. by apply words_read_no_blank. }
  split; [done|]. intros w. by rewrite in_index_build_index, H.
Qed.

Lemma indexed_words_until_blank_witness :
  indexed_words blank_text = map Str.rstrip ["arc" +:+ nl]
  ∧ ∀ w, in_index (build_index blank_text) w ↔ w ∈ map Str.rstrip ["arc" +:+ nl].
Proof.
  apply (indexed_words_until_blank blank_text ["arc" +:+ nl] [nl; "car" +:+ nl]).
  - reflexivity.
  - apply (bool_decide_unpack _). vm_compute. exact I.
  - right. exists nl, ["car" +:+ nl]. split; reflexivity.
Defined.

(** ** The subanagram test on any pair of vectors *)

Lemma all_le_seq (k n : nat) (cv qv : list Z) :
  (k + n ≤ length qv)%nat →
  match all_le (seq k n) cv qv with
  | Some true =>
      ∀ i, (k ≤ i < k + n)%nat → ∃ c q, cv !! i = Some c ∧ qv !! i = Some q ∧ c <= q
  | Some false =>
      ∃ i c q, (k ≤ i < k + n)%nat ∧ cv !! i = Some c ∧ qv !! i = Some q ∧ q < c
  | None =>
      ∃ i, (k ≤ i < k + n)%nat ∧ cv !! i = None
           ∧ ∀ j, (k ≤ j < i)%nat → ∃ c q, cv !! j = Some c ∧ qv !! j = Some q ∧ c <= q
  end.
Proof.
  revert k. induction n as [|n IH]; intros k Hlen; cbn.
  - intros i Hi. lia.
  - destruct (cv !! k) as [c|] eqn:Hc; cbn.
    + destruct (lookup_lt_is_Some_2 qv k) as [q Hq]; [lia|]. rewrite Hq; cbn.
      case_bool_decide as Hle.
      * specialize (IH (S k)). destruct (all_le (seq (S k) n) cv qv) as [[]|].
        -- intros i Hi. destruct (decide (i = k)) as [->|Hne]; [eauto|]. apply IH; lia.
        -- destruct IH as (i & c' & q' & Hi & H); [lia|]. exists i, c', q'. split; [lia | done].
        -- destruct IH as (i & Hi & Hnone & Hpre); [lia|]. exists i. split; [lia|].
           split; [done|]. intros j Hj.
           destruct (decide (j = k)) as [->|Hne]; [eauto|]. apply Hpre; lia.
      * exists k, c, q. split; [lia|]. split; [done|]. split; [done | lia].
    + exists k. split; [lia|]. split; [done|]. intros j Hj. lia.
Qed.

(** The test raises on short candidate vectors only. *)
Lemma subanagram_test_None_short (cv qv : list Z) :
  length qv = 26%nat → subanagram_test cv qv = None → (length cv < 26)%nat.
Proof.
  intros Hqv Hnone. pose proof (all_le_seq 0 26 cv qv) as H.
  unfold subanagram_test in Hnone. rewrite Hnone in H.
  destruct H as (i & Hi & Hi' & _); [lia|]. apply lookup_ge_None in Hi'. lia.
Qed.

(** X8. The test of [get_results] on a candidate vector of any length,
    against a query vector of 26 entries. It passes iff the candidate has
    an entry at each of the 26 positions, not above the query's (entries
    past the 26th are not looked at). It raises iff the candidate has
    fewer than 26 entries and none of them is above the query's: an entry
    above the query's ends the test with a failure before the missing
    position is reached. *)
Theorem subanagram_test_cases (cv qv : list Z) :
  length qv = 26%nat →
  (subanagram_test cv qv = Some true ↔ dominated cv qv)
  ∧ (subanagram_test cv qv = None ↔
       (length cv < 26)%nat
       ∧ ∀ i c q, cv !! i = Some c → qv !! i = Some q → c <= q)
  ∧ (subanagram_test cv qv = Some false ↔
       ∃ i c q, cv !! i = Some c ∧ qv !! i = Some q ∧ q < c).
Proof.
  intros Hqv. pose proof (all_le_seq 0 26 cv qv) as H.
  unfold subanagram_test, dominated.
  assert (Hpass : (∀ i, (i < 26)%nat → ∃ c q, cv !! i = Some c ∧ qv !! i = Some q ∧ c <= q) →
                  (26 ≤ length cv)%nat
                  ∧ ¬ ∃ i c q, cv !! i = Some c ∧ qv !! i = Some q ∧ q < c).
  { intros Hall. split.
    - destruct (Hall 25%nat) as (c & _ & Hc & _); [lia|].
      apply lookup_lt_Some in Hc. lia.
    - intros (i & c & q & Hc & Hq & Hlt).
      assert (i < 26)%nat by (apply lookup_lt_Some in Hq; lia).
      destruct (Hall i) as (c' & q' & Hc' & Hq' & Hle); [done|].
      rewrite Hc in Hc'. rewrite Hq in Hq'. simplify_eq. lia. }
  assert (Hraise : (length cv < 26)%nat ∧ (∀ i c q, cv !! i = Some c → qv !! i = Some q → c <= q) →
                   ¬ ∃ i c q, cv !! i = Some c ∧ qv !! i = Some q ∧ q < c).
  { intros [_ Hall] (i & c & q & Hc & Hq & Hlt). specialize (Hall i c q Hc Hq). lia. }
  destruct (all_le (seq 0 26) cv qv) as [[]|].
  - assert (Hall : ∀ i, (i < 26)%nat → ∃ c q, cv !! i = Some c ∧ qv !! i = Some q ∧ c <= q).
    { intros i Hi. apply H; lia. }
    destruct (Hpass Hall) as [Hlen Hno].
    split; [done|]. split; (split; [done|]).
    + intros [Hlt _]. lia.
    + intros Hex. by destruct Hno.
  - destruct H as (i & c & q & Hi & Hc & Hq & Hlt); [lia|].
    assert (Hex : ∃ i c q, cv !! i = Some c ∧ qv !! i = Some q ∧ q < c) by eauto 6.
    split; [|split].
    + split; [done|]. intros Hall%Hpass. by destruct Hall as [_ []].
    + split; [done|]. intros Hr%Hraise. by destruct Hr.
    + done.
  - destruct H as (i & Hi & Hnone & Hpre); [lia|].
    apply lookup_ge_None in Hnone.
    assert (Hr : (length cv < 26)%nat ∧ ∀ i c q, cv !! i = Some c → qv !! i = Some q → c <= q).
    { split; [lia|]. intros j c q Hc Hq.
      assert (j < i)%nat by (apply lookup_lt_Some in Hc; lia).
      destruct (Hpre j) as (c' & q' & Hc' & Hq' & Hle); [lia|].
      rewrite Hc in Hc'. rewrite Hq in Hq'. by simplify_eq. }
    split; [|split].
    + split; [done|]. intros [Hlen _]%Hpass. lia.
    + done.
    + split; [done|]. intros Hex. by destruct (Hraise Hr).
Qed.

Lemma subanagram_test_cases_witness :
  subanagram_test [5] (vectorize_word "abc") = Some false
  ∧ subanagram_test [1] (vectorize_word "abc") = None.
Proof.
  destruct (subanagram_test_cases [5] (vectorize_word "abc") eq_refl) as (_ & _ & H1).
  destruct (subanagram_test_cases [1] (vectorize_word "abc") eq_refl) as (_ & H2 & _).
  split.
  - apply H1. exists 0%nat, 5, 1. split; [reflexivity|]. split; [reflexivity | lia].
  - apply H2. split; [cbn; lia|].
    intros [|i] c q Hc Hq; [|done]. vm_compute in Hc, Hq. simplify_eq. lia.
Defined.

(** ** [get_results] on any table *)

Lemma scan_step_acc (idx : Index) (qv : list Z) (acc : gset string) (s : string) :
  scan_step idx qv acc s = (fun words => acc ∪ words) <$> scan_step idx qv ∅ s.
Proof.
  unfold scan_step. destruct (vectors idx !! s) as [cv|]; cbn; [|done].
  destruct (subanagram_test cv qv) as [[]|]; cbn; [|by rewrite union_empty_r_L|done].
  destruct (anagrams idx !! s) as [words|]; cbn; [|done].
  by rewrite union_empty_l_L.
Qed.

Lemma scan_step_Some (idx : Index) (qv : list Z) (s : string) (found : gset string) :
  scan_step idx qv ∅ s = Some found →
  ∀ w, w ∈ found ↔
    ∃ words cv, anagrams idx !! s = Some words ∧ vectors idx !! s = Some cv
                ∧ subanagram_test cv qv = Some true ∧ w ∈ words.
Proof.
  unfold scan_step. intros H w.
  destruct (vectors idx !! s) as [cv|]; cbn in H; [|done].
  destruct (subanagram_test cv qv) as [[]|] eqn:Ht; cbn in H; [| |done].
  - destruct (anagrams idx !! s) as [words|]; cbn in H; [|done].
    injection H as <-. rewrite union_empty_l_L. split; [eauto 6|].
    by intros (words' & cv' & [= <-] & _ & _ & Hw).
  - injection H as <-. split; [by intros ?%not_elem_of_empty|].
    intros (words' & cv' & _ & [= <-] & Htest & _). congruence.
Qed.

(** The scan raises iff the body of the loop raises on one of the
    keys; otherwise its result is what the passing keys contribute. *)
Lemma scan_cases (idx : Index) (qv : list Z) (candidates : list string) (acc : gset string) :
  match scan idx qv candidates acc with
  | Some R =>
      (∀ s, s ∈ candidates → is_Some (scan_step idx qv ∅ s))
      ∧ ∀ w, w ∈ R ↔ w ∈ acc ∨ ∃ s found, s ∈ candidates
                                   ∧ scan_step idx qv ∅ s = Some found ∧ w ∈ found
  | None => ∃ s, s ∈ candidates ∧ scan_step idx qv ∅ s = None
  end.
Proof.
  revert acc. induction candidates as [|s rest IH]; intros acc; cbn.
  - split; [by intros s ?%elem_of_nil|]. intros w. split; [tauto|].
    intros [H|(s & found & Hs%elem_of_nil & _)]; done.
  - rewrite scan_step_acc. destruct (scan_step idx qv ∅ s) as [found|] eqn:Hstep; cbn.
    + specialize (IH (acc ∪ found)).
      destruct (scan idx qv rest (acc ∪ found)) as [R|].
      * destruct IH as [Hall HR]. split.
        -- intros s' [->|Hs']%elem_of_cons; [by rewrite Hstep | by apply Hall].
        -- intros w. rewrite HR, elem_of_union. split.
           ++ intros [[H|H]|(s' & found' & Hs' & Hrest)].
              ** by left.
              ** right. exists s, found. split; [left | done].
              ** right. exists s', found'. split; [by right | done].
           ++ intros [H|(s' & found' & [->|Hs']%elem_of_cons & Hst & Hw)].
              ** by left; left.
              ** left; right. rewrite Hstep in Hst. by injection Hst as <-.
              ** right. by exists s', found'.
      * destruct IH as (s' & Hs' & Hnone). exists s'. split; [by right | done].
    + exists s. split; [left | done].
Qed.

(** [query] takes the lowercased query out of the result of the scan. *)
Lemma query_scan (idx : Index) (q : string) :
  query idx q
  = (fun R0 => R0 ∖ {[ Str.lower q ]})
      <$> scan idx (vectorize_word (Str.lower q)) (keys idx) ∅.
Proof.
  unfold query. destruct (scan idx _ (keys idx) ∅) as [R0|]; cbn; [|done].
  destruct (decide (Str.lower q ∈ R0)) as [Hin|Hnin]; [done|].
  f_equal. apply set_eq. intros w. rewrite elem_of_difference, elem_of_singleton.
  split; [|tauto]. intros Hw. split; [done|]. by intros ->.
Qed.

(** X9. When [get_results] raises. With ["lookup.p"] missing it raises.
    With a table, whatever its content, it raises iff some key of
    [anagrams] has no vector in [vectors], or has a vector on which the
    subanagram test raises; the keys of [vectors] that [anagrams] lacks are
    never looked at. In particular it returns when each key of [anagrams]
    has a vector of at least 26 entries. *)
Theorem get_results_raises (fs : FS) (q : string) :
  (lookup_p fs = None → get_results fs q = None)
  ∧ (∀ idx, lookup_p fs = Some idx →
       (get_results fs q = None ↔
          ∃ s, s ∈ dom (anagrams idx)
               ∧ (vectors idx !! s = None
                  ∨ ∃ cv, vectors idx !! s = Some cv
                          ∧ subanagram_test cv (vectorize_word (Str.lower q)) = None))
       ∧ ((∀ s, s ∈ dom (anagrams idx) →
             ∃ cv, vectors idx !! s = Some cv ∧ (26 ≤ length cv)%nat) →
          is_Some (get_results fs q))).
Proof.
  split; [intros H; unfold get_results; by rewrite H|].
  intros idx Hidx. unfold get_results. rewrite Hidx. cbn.
  assert (Hiff : query idx q = None ↔
     ∃ s, s ∈ dom (anagrams idx)
          ∧ (vectors idx !! s = None
             ∨ ∃ cv, vectors idx !! s = Some cv
                     ∧ subanagram_test cv (vectorize_word (Str.lower q)) = None)).
  { rewrite query_scan.
    pose proof (scan_cases idx (vectorize_word (Str.lower q)) (keys idx) ∅) as H.
    destruct (scan idx _ (keys idx) ∅) as [R0|]; cbn.
    - destruct H as [Hall _]. split; [done|].
      intros (s & Hs & Hbad). exfalso.
      destruct (Hall s) as [found Hfound]; [apply elem_of_keys; by apply elem_of_dom|].
      unfold scan_step in Hfound.
      destruct Hbad as [Hnone|(cv & Hcv & Htest)].
      + by rewrite Hnone in Hfound.
      + rewrite Hcv in Hfound. cbn in Hfound. by rewrite Htest in Hfound.
    - split; [|done]. intros _. destruct H as (s & [words Hs]%elem_of_keys & Hnone).
      exists s. split; [apply elem_of_dom; eauto|].
      unfold scan_step in Hnone.
      destruct (vectors idx !! s) as [cv|]; [|by left]. right. exists cv. split; [done|].
      cbn in Hnone. destruct (subanagram_test cv _) as [[]|]; cbn in Hnone; [|done..].
      by rewrite Hs in Hnone. }
  split; [done|]. intros Hvec.
  destruct (query idx q) as [R|] eqn:E; [by eexists|]. exfalso.
  destruct (proj1 Hiff eq_refl) as (s & Hs & Hbad).
  destruct (Hvec s Hs) as (cv & Hcv & Hlen).
  destruct Hbad as [Hnone|(cv' & Hcv' & Htest)]; [congruence|].
  rewrite Hcv in Hcv'. injection Hcv' as <-.
  apply (subanagram_test_None_short cv _ (vectorize_word_length _)) in Htest. lia.
Qed.

Lemma get_results_raises_witness :
  get_results (mkFS ∅ (Some short_index)) "b" = None
  ∧ get_results (mkFS ∅ (Some short_index)) "a" = Some ∅.
Proof.
  destruct (get_results_raises (mkFS ∅ (Some short_index)) "b") as [_ H].
  destruct (H short_index eq_refl) as [Ha _].
  split.
  - apply Ha. exists "b". split; [apply (bool_decide_unpack _); vm_compute; exact I|].
    right. exists [0; 1]. split; vm_compute; reflexivity.
  - vm_compute. reflexivity.
Defined.

(** X10. On any table, a word of the result of [get_results] is a word
    of some word-set of the table, and the lowercased query is never in
    the result. *)
Theorem get_results_sound (fs : FS) (q : string) (R : gset string) (w : string) :
  get_results fs q = Some R → w ∈ R →
  (∃ idx, lookup_p fs = Some idx ∧ in_index idx w) ∧ w ≠ Str.lower q
  ∧ Str.lower q ∉ R.
Proof.
  unfold get_results. destruct (lookup_p fs) as [idx|]; cbn; [|done].
  intros Hq Hw. pose proof (query_excludes_lowered idx q R Hq) as Hex.
  split; [|split; [by intros -> | done]].
  exists idx. split; [done|]. rewrite query_scan in Hq.
  pose proof (scan_cases idx (vectorize_word (Str.lower q)) (keys idx) ∅) as H.
  destruct (scan idx _ (keys idx) ∅) as [R0|]; cbn in Hq; [|done].
  injection Hq as <-. apply elem_of_difference in Hw as [Hw _].
  destruct H as [_ HR]. apply HR in Hw as [Hw|(s & found & _ & Hstep & Hw)].
  - by apply not_elem_of_empty in Hw.
  - apply (scan_step_Some _ _ _ _ Hstep) in Hw as (words & cv & Hs & _ & _ & Hw).
    by exists s, words.
Qed.

Lemma get_results_sound_witness :
  (∃ idx, lookup_p upper_fs_built = Some idx ∧ in_index idx "ABC") ∧ "ABC" ≠ Str.lower "ABC"
  ∧ Str.lower "ABC" ∉ ({[ "ABC" ]} : gset string).
Proof.
  apply (get_results_sound upper_fs_built "ABC" {[ "ABC" ]} "ABC").
  - vm_compute. reflexivity.
  - apply (bool_decide_unpack _). vm_compute. exact I.
Defined.

(** ** How the result depends on the query *)

(** X11. [get_results] reads its query through [lower] only: two
    queries with the same lowercase form have the same outcome, and a
    query and its lowercase form do. *)
Theorem get_results_case_insensitive (fs : FS) (q1 q2 : string) :
  Str.lower q1 = Str.lower q2 →
  get_results fs q1 = get_results fs q2
  ∧ get_results fs (Str.lower q1) = get_results fs q1.
Proof.
  intros H. unfold get_results. destruct (lookup_p fs) as [idx|]; cbn; [|done].
  rewrite !query_scan, lower_idemp, H. done.
Qed.

Lemma get_results_case_insensitive_witness :
  get_results sample_fs_built "CaRs" = get_results sample_fs_built "cARS"
  ∧ get_results sample_fs_built (Str.lower "CaRs") = get_results sample_fs_built "CaRs".
Proof.
  apply (get_results_case_insensitive sample_fs_built "CaRs" "cARS"). reflexivity.
Defined.

(** X12. Two queries whose lowercase forms are permutations of each
    other get the same words, up to the two queries themselves: on any
    table the two outcomes agree once both lowercased queries are taken
    out. *)
Theorem get_results_anagram_queries (fs : FS) (q1 q2 : string) :
  Str.chars (Str.lower q1) ≡ₚ Str.chars (Str.lower q2) →
  (fun R => R ∖ {[ Str.lower q2 ]}) <$> get_results fs q1
  = (fun R => R ∖ {[ Str.lower q1 ]}) <$> get_results fs q2.
Proof.
  intros H. unfold get_results. destruct (lookup_p fs) as [idx|]; cbn; [|done].
  rewrite !query_scan, (vectorize_word_Permutation _ _ H).
  destruct (scan idx _ (keys idx) ∅) as [R0|]; cbn; [|done].
  f_equal. apply set_eq. intros w. rewrite !elem_of_difference. tauto.
Qed.

Lemma get_results_anagram_queries_witness :
  (fun R => R ∖ {[ Str.lower "arc" ]}) <$> get_results sample_fs_built "Car"
  = (fun R => R ∖ {[ Str.lower "Car" ]}) <$> get_results sample_fs_built "arc".
Proof.
  apply (get_results_anagram_queries sample_fs_built "Car" "arc").
  apply (bool_decide_unpack _). vm_compute. exact I.
Defined.

Lemma letters_within_trans (a b c : string) :
  letters_within a b → letters_within b c → letters_within a c.
Proof.
  intros Hab Hbc letter Hl. specialize (Hab letter Hl). specialize (Hbc letter Hl). lia.
Qed.

(** On a table that satisfies the invariant, a query with more of each
    letter gets at least the same words. *)
Lemma query_mono (idx : Index) (q1 q2 : string) (R1 R2 : gset string) (w : string) :
  index_inv idx →
  letters_within (Str.lower q1) (Str.lower q2) →
  query idx q1 = Some R1 → query idx q2 = Some R2 →
  w ∈ R1 → w ≠ Str.lower q2 → w ∈ R2.
Proof.
  intros Hinv Hq H1 H2 Hw Hne.
  destruct (query_spec idx q1 Hinv) as (R1' & HR1 & Hspec1).
  destruct (query_spec idx q2 Hinv) as (R2' & HR2 & Hspec2).
  rewrite H1 in HR1. rewrite H2 in HR2. simplify_eq.
  apply Hspec1 in Hw as [(s & words & Hs & Hd & Hw) _].
  apply Hspec2. split; [|done]. exists s, words. split; [done|]. split; [|done].
  apply dominated_letters_within. apply dominated_letters_within in Hd.
  by eapply letters_within_trans.
Qed.

(** X13. On a table that satisfies the co-keying invariant the result
    grows with the letters of the query: if the lowercased [q1] has at
    most as many of each letter as the lowercased [q2], each word returned
    for [q1], the lowercased [q2] apart, is returned for [q2]. *)
Theorem get_results_monotone
    (fs : FS) (idx : Index) (q1 q2 : string) (R1 R2 : gset string) (w : string) :
  lookup_p fs = Some idx → index_inv idx →
  letters_within (Str.lower q1) (Str.lower q2) →
  get_results fs q1 = Some R1 → get_results fs q2 = Some R2 →
  w ∈ R1 → w ≠ Str.lower q2 → w ∈ R2.
Proof.
  unfold get_results. intros -> Hinv Hq H1 H2. cbn in H1, H2.
  by apply (query_mono idx q1 q2).
Qed.

Lemma get_results_monotone_witness : "ac" ∈ ({[ "arc"; "car"; "ac"; "a" ]} : gset string).
Proof.
  apply (get_results_monotone sample_fs_built (build_index sample_text)
           "car" "cars" {[ "arc"; "ac"; "a" ]} {[ "arc"; "car"; "ac"; "a" ]} "ac").
  - reflexivity.
  - apply (bool_decide_unpack _). vm_compute. exact I.
  - intros letter Hl. apply list_elem_of_In in Hl. cbn in Hl.
    repeat (destruct Hl as [<-|Hl]; [vm_compute; discriminate|]). done.
  - vm_compute. reflexivity.
  - vm_compute. reflexivity.
  - apply (bool_decide_unpack _). vm_compute. exact I.
  - discriminate.
Defined.

(** X14. Subanagrams of a subanagram: on a table that satisfies the
    invariant, if [w] is returned for [q] and is its own lowercase form,
    each word returned for [w], the lowercased [q] apart, is returned for
    [q]. *)
Theorem get_results_transitive
    (fs : FS) (idx : Index) (q w w' : string) (R R' : gset string) :
  lookup_p fs = Some idx → index_inv idx →
  get_results fs q = Some R → w ∈ R → Str.lower w = w →
  get_results fs w = Some R' → w' ∈ R' → w' ≠ Str.lower q → w' ∈ R.
Proof.
  unfold get_results. intros -> Hinv HR Hw Hlow HR' Hw' Hne. cbn in HR, HR'.
  apply (query_mono idx w q R' R w' Hinv); [|done..].
  destruct (query_spec idx q Hinv) as (R0 & HR0 & Hspec).
  rewrite HR in HR0. injection HR0 as <-.
  apply Hspec in Hw as [(s & words & Hs & Hd & Hw) _].
  rewrite Hlow. apply dominated_letters_within.
  by rewrite <- (index_inv_signature idx s w words Hinv Hs Hw), vectorize_word_signature in Hd.
Qed.

Lemma get_results_transitive_witness : "a" ∈ ({[ "arc"; "car"; "ac"; "a" ]} : gset string).
Proof.
  apply (get_results_transitive sample_fs_built (build_index sample_text)
           "cars" "car" "a" {[ "arc"; "car"; "ac"; "a" ]} {[ "arc"; "ac"; "a" ]}).
  - reflexivity.
  - apply (bool_decide_unpack _). vm_compute. exact I.
  - vm_compute. reflexivity.
  - apply (bool_decide_unpack _). vm_compute. exact I.
  - reflexivity.
  - vm_compute. reflexivity.
  - apply (bool_decide_unpack _). vm_compute. exact I.
  - discriminate.
Defined.

(** X15. A word of the table without any letter a-z (capitals, digits,
    punctuation only) has the all-zero vector and is returned for every
    query but the one whose lowercase form it is. *)
Theorem get_results_letterless_word
    (fs : FS) (idx : Index) (q : string) (w : string) :
  lookup_p fs = Some idx → index_inv idx →
  in_index idx w → count_lowercase w = 0%nat →
  vectorize_word w = replicate 26 0
  ∧ ∃ R, get_results fs q = Some R ∧ (w ∈ R ↔ w ≠ Str.lower q).
Proof.
  unfold get_results. intros -> Hinv (s & words & Hs & Hw) Hzero. cbn.
  assert (Hcount : ∀ letter, letter ∈ Str.chars ascii_lowercase → Str.count w letter = 0).
  { intros letter Hl. unfold Str.count.
    rewrite (proj1 (count_occ_not_In ascii_dec (Str.chars w) letter)); [done|].
    intros Hin. unfold count_lowercase in Hzero.
    apply length_zero_iff_nil in Hzero.
    assert (Hf : In letter (List.filter is_lowercase (Str.chars w))).
    { apply filter_In. split; [done|]. unfold is_lowercase. by apply bool_decide_eq_true. }
    by rewrite Hzero in Hf. }
  split.
  { rewrite vectorize_word_map.
    transitivity (map (fun _ : ascii => 0) (Str.chars ascii_lowercase)); [|reflexivity].
    apply Forall_fmap_ext_1, Forall_forall. intros letter Hl. by apply Hcount. }
  destruct (query_spec idx q Hinv) as (R & HR & Hspec).
  exists R. split; [done|]. rewrite Hspec. split; [tauto|]. intros Hne. split; [|done].
  exists s, words. split; [done|]. split; [|done].
  rewrite <- (index_inv_signature idx s w words Hinv Hs Hw), vectorize_word_signature.
  apply dominated_letters_within. intros letter Hl. rewrite (Hcount letter Hl).
  apply count_nonneg.
Qed.

Lemma get_results_letterless_word_witness :
  vectorize_word "ABC" = replicate 26 0
  ∧ ∃ R, get_results upper_fs_built "zebra" = Some R ∧ ("ABC" ∈ R ↔ "ABC" ≠ Str.lower "zebra").
Proof.
  apply (get_results_letterless_word upper_fs_built (build_index upper_text) "zebra" "ABC").
  - reflexivity.
  - apply (bool_decide_unpack _). vm_compute. exact I.
  - apply in_index_build_index. vm_compute. left.
  - reflexivity.
Defined.

(** ** [print_results], continued *)

Lemma range_down_sorted (start stop : nat) :
  StronglySorted gt (range_down start stop)
  ∧ ∀ n, n ∈ range_down start stop ↔ (stop < n ≤ start)%nat.
Proof.
  unfold range_down. split.
  - induction (start - stop)%nat as [|k IH]; [constructor|].
    rewrite seq_S, rev_unit. constructor; [done|].
    apply Forall_forall. intros n Hn.
    apply list_elem_of_In, (proj2 (in_rev _ _)), list_elem_of_In, elem_of_seq in Hn. lia.
  - intros n. rewrite list_elem_of_In, <- in_rev, <- list_elem_of_In, elem_of_seq. lia.
Qed.

Lemma block_words_NoDup (R : gset string) (n : nat) :
  NoDup (List.filter (fun w => bool_decide (Str.len w = n)) (elements R)).
Proof. apply NoDup_ListNoDup, List.NoDup_filter, NoDup_ListNoDup, NoDup_elements. Qed.

Lemma block_words_elem (R : gset string) (n : nat) (w : string) :
  w ∈ List.filter (fun w => bool_decide (Str.len w = n)) (elements R)
  ↔ w ∈ R ∧ Str.len w = n.
Proof.
  rewrite list_elem_of_In, filter_In, <- list_elem_of_In, elem_of_elements.
  by rewrite bool_decide_eq_true.
Qed.

Lemma print_results_elem (q : string) (R : gset string) (n : nat) (ws : list string) :
  (n, ws) ∈ print_results q R ↔
  (2 ≤ n ≤ Str.len q)%nat ∧ ws ≠ []
  ∧ ws = List.filter (fun w => bool_decide (Str.len w = n)) (elements R).
Proof.
  unfold print_results. rewrite list_elem_of_omap. split.
  - intros (m & Hm%range_down_sorted & Hsome).
    destruct (group_by_length R !! m) as [ws'|] eqn:E; cbn in Hsome; [|done].
    injection Hsome as <- <-. apply group_by_length_lookup in E as [-> Hne].
    split; [lia | done].
  - intros (Hn & Hne & Hws). exists n. split; [apply range_down_sorted; lia|].
    rewrite (proj2 (group_by_length_lookup R n ws)); done.
Qed.

(** X16. The blocks that [print_results] emits: a block is printed for
    a length [n] iff [n] is at least 2 and at most the length of the
    query and the set has a word of length [n]; it then holds the words of
    the set of that length, each once; the blocks come by strictly
    decreasing length. *)
Theorem print_results_blocks_spec (q : string) (R : gset string) :
  StronglySorted gt (print_results q R).*1
  ∧ (∀ n, n ∈ (print_results q R).*1 ↔
       (2 ≤ n ≤ Str.len q)%nat ∧ ∃ w, w ∈ R ∧ Str.len w = n)
  ∧ (∀ n ws, (n, ws) ∈ print_results q R →
       NoDup ws ∧ ∀ w, w ∈ ws ↔ w ∈ R ∧ Str.len w = n).
Proof.
  split; [|split].
  - unfold print_results.
    destruct (range_down_sorted (Str.len q) 1) as [Hsorted _].
    induction Hsorted as [|n ns _ IH Hall]; [constructor|]. cbn.
    destruct (group_by_length R !! n) as [ws|]; cbn; [|done].
    constructor; [done|]. apply Forall_forall. intros m Hm.
    apply list_elem_of_fmap in Hm as ([m' ws'] & -> & Hm).
    apply list_elem_of_omap in Hm as (k & Hk & Hsome).
    destruct (group_by_length R !! k); cbn in Hsome; [|done]. injection Hsome as <- _.
    rewrite Forall_forall in Hall. by apply Hall.
  - intros n. rewrite list_elem_of_fmap. split.
    + intros ([n' ws] & -> & (Hn & Hne & ->)%print_results_elem). split; [done|]. cbn.
      destruct (List.filter _ (elements R)) as [|w l] eqn:E; [done|].
      exists w. apply block_words_elem. rewrite E. left.
    + intros (Hn & w & Hw & Hlen).
      exists (n, List.filter (fun w => bool_decide (Str.len w = n)) (elements R)).
      split; [done|]. apply print_results_elem. split; [done|]. split; [|done].
      intros Hnil. assert (Hin : w ∈ List.filter (fun w => bool_decide (Str.len w = n)) (elements R))
        by (by apply block_words_elem).
      rewrite Hnil in Hin. by apply elem_of_nil in Hin.
  - intros n ws (_ & _ & ->)%print_results_elem.
    split; [apply block_words_NoDup|]. intros w. apply block_words_elem.
Qed.

Lemma printed_words_NoDup_aux (R : gset string) (ns : list nat) :
  NoDup ns →
  NoDup (printed_words
           (omap (fun n => words ← group_by_length R !! n; Some (n, words)) ns)).
Proof.
  unfold printed_words. induction 1 as [|n ns Hn Hnd IH]; cbn; [constructor|].
  destruct (group_by_length R !! n) as [ws|] eqn:E; cbn; [|done].
  apply group_by_length_lookup in E as [-> _].
  apply NoDup_app. split; [apply block_words_NoDup|]. split; [|done].
  intros w [_ Hlen]%block_words_elem Hin.
  apply list_elem_of_In, in_concat in Hin as (ws' & Hws' & Hw).
  apply list_elem_of_In, list_elem_of_fmap in Hws' as ([m ws''] & -> & Hm).
  apply list_elem_of_omap in Hm as (k & Hk & Hsome).
  destruct (group_by_length R !! k) as [wsk|] eqn:Ek; cbn in Hsome; [|done].
  injection Hsome as <- <-. apply group_by_length_lookup in Ek as [-> _].
  apply list_elem_of_In, block_words_elem in Hw as [_ Hlen']. congruence.
Qed.

Lemma printed_words_NoDup (q : string) (R : gset string) :
  NoDup (printed_words (print_results q R)).
Proof.
  apply printed_words_NoDup_aux.
  destruct (range_down_sorted (Str.len q) 1) as [Hsorted _].
  clear -Hsorted. induction Hsorted as [|n ns _ IH Hall]; constructor; [|done].
  intros Hin. rewrite Forall_forall in Hall. specialize (Hall n Hin). lia.
Qed.

Lemma printed_words_elem (q : string) (R : gset string) (w : string) :
  w ∈ printed_words (print_results q R) ↔ w ∈ R ∧ (2 ≤ Str.len w ≤ Str.len q)%nat.
Proof.
  unfold printed_words. rewrite list_elem_of_In, in_concat. split.
  - intros (ws & Hws & Hw).
    apply list_elem_of_In, list_elem_of_fmap in Hws as ([n ws'] & -> & Hblock).
    apply print_results_elem in Hblock as (Hn & _ & Hws). cbn in Hw. rewrite Hws in Hw.
    apply list_elem_of_In, block_words_elem in Hw as [HwR <-]. done.
  - intros [HwR Hlen].
    exists (List.filter (fun w' => bool_decide (Str.len w' = Str.len w)) (elements R)).
    assert (Hin : w ∈ List.filter (fun w' => bool_decide (Str.len w' = Str.len w)) (elements R))
      by (by apply block_words_elem).
    split; [|by apply list_elem_of_In].
    apply list_elem_of_In, list_elem_of_fmap.
    exists (Str.len w, List.filter (fun w' => bool_decide (Str.len w' = Str.len w)) (elements R)).
    split; [done|]. apply print_results_elem. split; [done|]. split; [|done].
    intros Hnil. rewrite Hnil in Hin. by apply elem_of_nil in Hin.
Qed.

(** X17. The words that [print_results] emits are the words of the set
    whose length is at least 2 and at most the length of the query, each
    printed once; the words of one letter and the words longer than the
    query are left out. *)
Theorem print_results_words (q : string) (R : gset string) :
  NoDup (printed_words (print_results q R))
  ∧ ∀ w, w ∈ printed_words (print_results q R) ↔
         w ∈ R ∧ (2 ≤ Str.len w ≤ Str.len q)%nat.
Proof.
  split.
  - apply printed_words_NoDup.
  - intros w. apply printed_words_elem.
Qed.

Lemma print_results_empty_set (q : string) : print_results q ∅ = [].
Proof.
  unfold print_results, group_by_length. rewrite elements_empty. cbn.
  induction (range_down (Str.len q) 1) as [|n ns IH]; [done|].
  cbn. by rewrite lookup_empty.
Qed.

(** X18. Nothing is printed for an empty result set, nor for a query of
    at most one character, whatever the result set. *)
Theorem print_results_nothing (q : string) (R : gset string) :
  R = ∅ ∨ (Str.len q ≤ 1)%nat → print_results q R = [].
Proof.
  intros H. destruct (print_results q R) as [|[n ws] out] eqn:E; [done|]. exfalso.
  assert (Hin : (n, ws) ∈ print_results q R) by (rewrite E; left).
  apply print_results_elem in Hin as (Hn & Hne & Hws).
  destruct H as [->|Hlen]; [|lia].
  rewrite elements_empty in Hws. by cbn in Hws.
Qed.

Lemma print_results_nothing_witness :
  print_results "a" {[ "a"; "ab" ]} = [].
Proof. apply print_results_nothing. right. cbn. lia. Defined.

(** ** [main], continued *)

Lemma query_built_Some (text : string) (q : string) :
  ∃ R, query (build_index text) q = Some R.
Proof. destruct (query_spec (build_index text) q (build_index_inv text)) as (R & HR & _). eauto. Qed.

(** [main] when the table has to be built and the word list is there. *)
Lemma main_without_table (fs : FS) (input listpath text : string) :
  lookup_p fs = None → open_text fs listpath = Some text →
  ∃ R, query (build_index text) input = Some R
       ∧ main fs input listpath
         = Some (mkFS (text_files fs) (Some (build_index text)), R, print_results input R).
Proof.
  intros Hno Htext. unfold main, isfile_lookup, generate_lookup. rewrite Hno, Htext. cbn.
  unfold get_results. cbn.
  destruct (query_built_Some text input) as [R HR]. exists R. by rewrite HR.
Qed.

(** X19. A run of [main] without ["lookup.p"]: it raises iff the word
    list cannot be read; otherwise it writes the table built from the
    word list, leaves the text files as they are, and returns and prints
    the result of the query on that table. *)
Theorem main_first_run (fs : FS) (input listpath : string) :
  lookup_p fs = None →
  (main fs input listpath = None ↔ open_text fs listpath = None)
  ∧ ∀ text, open_text fs listpath = Some text →
      ∃ R, query (build_index text) input = Some R
           ∧ main fs input listpath
             = Some (mkFS (text_files fs) (Some (build_index text)), R, print_results input R).
Proof.
  intros Hno. unfold main, isfile_lookup, generate_lookup. rewrite Hno.
  destruct (open_text fs listpath) as [text|]; cbn.
  - unfold get_results. cbn.
    destruct (query_built_Some text input) as [R HR]. rewrite HR. cbn.
    split; [done|]. intros text' [= <-]. exists R. by rewrite HR.
  - done.
Qed.

Lemma main_first_run_witness :
  (main sample_fs "cars" "words.txt" = None ↔ open_text sample_fs "words.txt" = None)
  ∧ ∀ text, open_text sample_fs "words.txt" = Some text →
      ∃ R, query (build_index text) "cars" = Some R
           ∧ main sample_fs "cars" "words.txt"
             = Some (mkFS (text_files sample_fs) (Some (build_index text)), R,
                     print_results "cars" R).
Proof. apply (main_first_run sample_fs "cars" "words.txt"). reflexivity. Defined.

Lemma filter_Permutation_bool {A} (P : A → bool) (l l' : list A) :
  l ≡ₚ l' → List.filter P l ≡ₚ List.filter P l'.
Proof.
  induction 1 as [|x l l' _ IH|x y l|l1 l2 l3 _ IH1 _ IH2]; cbn.
  - done.
  - destruct (P x); [by constructor | done].
  - destruct (P x), (P y); try done. apply perm_swap.
  - by etrans.
Qed.

Lemma print_results_in_elements (q : string) (R : gset string) :
  print_results_in (elements R) q = print_results q R.
Proof. reflexivity. Qed.

Lemma main_with_elements (fs : FS) (input listpath : string) :
  main_with elements fs input listpath = main fs input listpath.
Proof. reflexivity. Qed.

(** Two orders of walking the same set give the same blocks, up to the
    order of the words in a block. *)
Lemma print_results_in_Permutation (order order' : list string) (q : string) :
  order ≡ₚ order' → same_blocks (print_results_in order q) (print_results_in order' q).
Proof.
  intros Hperm. unfold same_blocks, print_results_in.
  induction (range_down (Str.len q) 1) as [|n ns IH]; cbn; [constructor|].
  rewrite !foldl_group_word_lookup, lookup_empty.
  pose proof (filter_Permutation_bool (fun w => bool_decide (Str.len w = n)) _ _ Hperm) as Hf.
  destruct (List.filter _ order) as [|w ws] eqn:E;
    destruct (List.filter _ order') as [|w' ws'] eqn:E'; cbn.
  - exact IH.
  - by apply Permutation_nil_cons in Hf.
  - symmetry in Hf. by apply Permutation_nil_cons in Hf.
  - constructor; [done | exact IH].
Qed.

(** X20. After a run of [main] that returns, ["lookup.p"] exists, and a
    second run on the file system it left, with the same input and any
    [listpath], leaves the file system as it is, returns the same result
    set and prints the same blocks, up to the order of the words inside a
    block: each run walks the result set in an order of its own. The table
    is never rebuilt. *)
Theorem main_second_run
    (iter iter' : gset string → list string)
    (fs fs' : FS) (input listpath listpath' : string)
    (R : gset string) (out : list (nat * list string)) :
  (∀ S, iter S ≡ₚ elements S) →
  (∀ S, iter' S ≡ₚ elements S) →
  main_with iter fs input listpath = Some (fs', R, out) →
  text_files fs' = text_files fs
  ∧ is_Some (lookup_p fs')
  ∧ ∃ out', main_with iter' fs' input listpath' = Some (fs', R, out')
            ∧ same_blocks out out'.
Proof.
  intros Hiter Hiter' H.
  assert (Hperm : iter R ≡ₚ iter' R) by (by rewrite Hiter, Hiter').
  unfold main_with, isfile_lookup in *.
  destruct (lookup_p fs) as [idx|] eqn:Hidx.
  - cbn in H. destruct (get_results fs input) as [R0|] eqn:HR; cbn in H; [|done].
    injection H as <- <- <-. split; [done|]. split; [by rewrite Hidx|].
    rewrite Hidx. cbn. rewrite HR. cbn. eexists. split; [done|].
    by apply print_results_in_Permutation.
  - unfold generate_lookup in H.
    destruct (open_text fs listpath) as [text|]; cbn in H; [|done].
    destruct (query (build_index text) input) as [R0|] eqn:HR; cbn in H; [|done].
    injection H as <- <- <-. cbn. split; [done|]. split; [done|].
    unfold get_results. cbn. rewrite HR. cbn. eexists. split; [done|].
    by apply print_results_in_Permutation.
Qed.

Lemma main_second_run_witness :
  text_files sample_fs_built = text_files sample_fs
  ∧ is_Some (lookup_p sample_fs_built)
  ∧ ∃ out', main_with (fun S => reverse (elements S)) sample_fs_built "cars" "missing.txt"
            = Some (sample_fs_built, {[ "arc"; "car"; "ac"; "a" ]}, out')
            ∧ same_blocks (print_results "cars" {[ "arc"; "car"; "ac"; "a" ]}) out'.
Proof.
  apply (main_second_run elements (fun S => reverse (elements S))
           sample_fs sample_fs_built "cars" "words.txt" "missing.txt").
  - done.
  - intros S. apply reverse_Permutation.
  - vm_compute. reflexivity.
Defined.

(** On a table that satisfies the invariant a returned word of lowercase
    letters is not longer than the query. *)
Lemma query_length_bound (idx : Index) (q : string) (R : gset string) (w : string) :
  index_inv idx → query idx q = Some R → w ∈ R → lowercase_word w →
  (Str.len w ≤ Str.len q)%nat.
Proof.
  intros Hinv HR Hw Hlow.
  destruct (query_spec idx q Hinv) as (R' & HR' & Hspec).
  rewrite HR in HR'. injection HR' as <-.
  apply Hspec in Hw as [(s & words & Hs & Hd & Hw) _].
  rewrite <- (index_inv_signature idx s w words Hinv Hs Hw), vectorize_word_signature in Hd.
  apply dominated_vector_sum in Hd.
  rewrite (vector_sum_lowercase w Hlow) in Hd.
  pose proof (vector_sum_le_len (Str.lower q)) as Hq.
  rewrite len_lower in Hq. lia.
Qed.

(** X21. With a word list of lowercase words, a first run of [main]
    prints each word of its result set that has two letters or more, once,
    and nothing else: what is not printed is the one-letter words. *)
Theorem main_prints_results (fs : FS) (input listpath text : string) :
  lookup_p fs = None →
  open_text fs listpath = Some text →
  Forall lowercase_word (indexed_words text) →
  ∃ fs' R out, main fs input listpath = Some (fs', R, out)
    ∧ NoDup (printed_words out)
    ∧ ∀ w, w ∈ printed_words out ↔ w ∈ R ∧ (2 ≤ Str.len w)%nat.
Proof.
  intros Hno Htext Hlow.
  destruct (main_without_table fs input listpath text Hno Htext) as (R & HR & Hmain).
  eexists _, R, _. split; [exact Hmain|].
  split; [apply printed_words_NoDup|].
  intros w. rewrite printed_words_elem. split; [intros [? ?]; split; [done | lia]|].
  intros [HwR Hlen]. split; [done|]. split; [done|].
  apply (query_length_bound (build_index text) input R w (build_index_inv text) HR HwR).
  rewrite Forall_forall in Hlow. apply Hlow.
  pose proof (query_spec (build_index text) input (build_index_inv text)) as (R' & HR' & Hspec).
  rewrite HR in HR'. injection HR' as <-.
  apply Hspec in HwR as [(s & words & Hs & _ & Hin) _].
  apply in_index_build_index. by exists s, words.
Qed.

Lemma main_prints_results_witness :
  ∃ fs' R out, main sample_fs "cars" "words.txt" = Some (fs', R, out)
    ∧ NoDup (printed_words out)
    ∧ ∀ w, w ∈ printed_words out ↔ w ∈ R ∧ (2 ≤ Str.len w)%nat.
Proof.
  apply (main_prints_results sample_fs "cars" "words.txt" sample_text).
  - reflexivity.
  - reflexivity.
  - apply (bool_decide_unpack _). vm_compute. exact I.
Defined.

(** X22. A word list that is empty, or that begins with a blank line,
    gives the empty table: every query then has the empty result, and a
    first run of [main] returns the empty set and prints nothing. *)
Theorem empty_word_list (fs : FS) (input listpath text : string) :
  lookup_p fs = None →
  open_text fs listpath = Some text →
  indexed_words text = [] →
  build_index text = empty_index
  ∧ (∀ q, query (build_index text) q = Some ∅)
  ∧ main fs input listpath = Some (mkFS (text_files fs) (Some empty_index), ∅, []).
Proof.
  intros Hno Htext Hempty.
  assert (Hidx : build_index text = empty_index).
  { unfold build_index. rewrite read_words_foldl.
    unfold indexed_words in Hempty. by rewrite Hempty. }
  assert (Hq : ∀ q, query empty_index q = Some ∅).
  { intros q. unfold query, keys, empty_index. cbn. rewrite map_to_list_empty. cbn.
    by rewrite decide_False by apply not_elem_of_empty. }
  split; [done|]. split; [intros q; by rewrite Hidx|].
  destruct (main_without_table fs input listpath text Hno Htext) as (R & HR & ->).
  rewrite Hidx, Hq in HR. injection HR as <-. rewrite Hidx.
  by rewrite print_results_empty_set.
Qed.

Lemma empty_word_list_witness :
  build_index (nl +:+ "arc" +:+ nl) = empty_index
  ∧ (∀ q, query (build_index (nl +:+ "arc" +:+ nl)) q = Some ∅)
  ∧ main (mkFS {[ "words.txt" := nl +:+ "arc" +:+ nl ]} None) "cars" "words.txt"
    = Some (mkFS (text_files (mkFS {[ "words.txt" := nl +:+ "arc" +:+ nl ]} None))
                 (Some empty_index), ∅, []).
Proof.
  apply (empty_word_list (mkFS {[ "words.txt" := nl +:+ "arc" +:+ nl ]} None)
           "cars" "words.txt" (nl +:+ "arc" +:+ nl)); reflexivity.
Defined.

(** ** Keys of the table *)

Lemma indexed_word_nonempty_aux (text : string) (w : string) :
  in_index (build_index text) w → w ≠ "" ∧ w ∈ indexed_words text.
Proof.
  intros Hw%in_index_build_index. split; [|done].
  unfold indexed_words in Hw. by apply words_read_stripped in Hw as [Hne _].
Qed.

Lemma signature_idemp (w : string) : signature (signature w) = signature w.
Proof. apply signature_eq_iff, chars_signature. Qed.

(** X23. A key of the table that [generate_lookup] writes is not the
    empty string, has its characters in non-decreasing order, is its own
    signature, and each word stored under it has the length and the
    characters of the key. *)
Theorem table_key_shape (text : string) (s : string) (words : gset string) :
  anagrams (build_index text) !! s = Some words →
  s ≠ "" ∧ Sorted Str.char_le (Str.chars s) ∧ signature s = s
  ∧ ∀ w, w ∈ words → Str.len w = Str.len s ∧ Str.chars w ≡ₚ Str.chars s.
Proof.
  intros Hs. pose proof (build_index_inv text) as Hinv.
  assert (Hwords : ∀ w, w ∈ words → signature w = s)
    by (intros w Hw; by eapply index_inv_signature).
  destruct (proj1 (build_index_lookup text s words) Hs) as [Hne Hchar].
  apply set_choose_L in Hne as [w0 Hw0].
  pose proof (Hwords w0 Hw0) as Hsig.
  split; [|split; [|split]].
  - intros ->. assert (Hlen : Str.len w0 = 0%nat) by (by rewrite <- len_signature, Hsig).
    assert (in_index (build_index text) w0) as [Hne0 _]%indexed_word_nonempty_aux;
      [by exists "", words | destruct w0; [done | discriminate]].
  - rewrite <- Hsig. unfold signature. rewrite chars_join. apply sorted_Sorted.
  - rewrite <- Hsig. apply signature_idemp.
  - intros w Hw. rewrite <- (Hwords w Hw). split; [by rewrite len_signature|].
    symmetry. apply chars_signature.
Qed.

Lemma table_key_shape_witness :
  "acr" ≠ "" ∧ Sorted Str.char_le (Str.chars "acr") ∧ signature "acr" = "acr"
  ∧ ∀ w, w ∈ ({[ "arc"; "car" ]} : gset string) →
         Str.len w = Str.len "acr" ∧ Str.chars w ≡ₚ Str.chars "acr".
Proof.
  apply (table_key_shape sample_text "acr" {[ "arc"; "car" ]}).
  vm_compute. reflexivity.
Defined.

(** X24. Two words of the table are stored under the same key iff they
    are permutations of each other. *)
Theorem same_key_iff_anagrams (text : string) (w w' : string) :
  in_index (build_index text) w → in_index (build_index text) w' →
  ((∃ s words, anagrams (build_index text) !! s = Some words ∧ w ∈ words ∧ w' ∈ words)
   ↔ Str.chars w ≡ₚ Str.chars w').
Proof.
  pose proof (build_index_inv text) as Hinv.
  intros (s & words & Hs & Hw) (s' & words' & Hs' & Hw').
  pose proof (index_inv_signature _ s w words Hinv Hs Hw) as Hsig.
  pose proof (index_inv_signature _ s' w' words' Hinv Hs' Hw') as Hsig'.
  rewrite <- signature_eq_iff. split.
  - intros (s0 & words0 & Hs0 & Hw0 & Hw0').
    rewrite (index_inv_signature _ s0 w words0 Hinv Hs0 Hw0).
    by rewrite (index_inv_signature _ s0 w' words0 Hinv Hs0 Hw0').
  - intros Heq. exists s, words. split; [done|]. split; [done|].
    rewrite Heq, Hsig' in Hsig. subst s'. rewrite Hs in Hs'. by injection Hs' as ->.
Qed.

Lemma same_key_iff_anagrams_witness :
  (∃ s words, anagrams (build_index sample_text) !! s = Some words
              ∧ "arc" ∈ words ∧ "car" ∈ words)
  ↔ Str.chars "arc" ≡ₚ Str.chars "car".
Proof.
  apply (same_key_iff_anagrams sample_text "arc" "car").
  - apply in_index_build_index. apply (bool_decide_unpack _). vm_compute. exact I.
  - apply in_index_build_index. apply (bool_decide_unpack _). vm_compute. exact I.
Defined.

(** ** Rebuilding the table *)

(** X25. [generate_lookup] replaces whatever ["lookup.p"] held by the
    table of the word list and leaves the text files as they are: its
    outcome does not depend on the previous content of ["lookup.p"], and
    running it again on the file system it left changes nothing. *)
Theorem generate_lookup_rebuild (fs fs' : FS) (path : string) (old : option Index) :
  generate_lookup fs path = Some fs' →
  text_files fs' = text_files fs
  ∧ generate_lookup (mkFS (text_files fs) old) path = Some fs'
  ∧ generate_lookup fs' path = Some fs'
  ∧ ∃ idx, lookup_p fs' = Some idx ∧ index_inv idx.
Proof.
  intros (text & Htext & ->)%generate_lookup_Some. cbn.
  unfold generate_lookup, open_text in *. cbn.
  destruct (decide (path = lookup_path)); [done|]. rewrite Htext. cbn.
  split; [done|]. split; [done|]. split; [done|].
  exists (build_index text). split; [done | apply build_index_inv].
Qed.

Lemma generate_lookup_rebuild_witness :
  text_files sample_fs_built = text_files sample_fs
  ∧ generate_lookup (mkFS (text_files sample_fs) (Some short_index)) "words.txt"
    = Some sample_fs_built
  ∧ generate_lookup sample_fs_built "words.txt" = Some sample_fs_built
  ∧ ∃ idx, lookup_p sample_fs_built = Some idx ∧ index_inv idx.
Proof.
  apply (generate_lookup_rebuild sample_fs sample_fs_built "words.txt" (Some short_index)).
  vm_compute. reflexivity.
Defined.
